(** * The OCR comparison notebook (vision/ocr.ipynb), embedded in Rocq

    The notebook loads an image, runs Tesseract and the Google Vision API on
    it, walks the hierarchical results and draws bounding shapes on copies
    of the image.  The definitions below follow the notebook's cells and
    keep their names.  Library calls (gcsfs, OpenCV I/O, PIL, tesserocr,
    the Vision client, matplotlib) are requests answered by a [World];
    numpy arrays are objects in a store, so that aliasing is visible. *)

From Stdlib Require Import ZArith.
From Stdlib Require SpecFloat.
From stdpp Require Import base option list strings gmap.

Local Open Scope Z_scope.

(** ** Python strings *)

(** The one-character string "\n". *)
Definition newline : string := String (Ascii.ascii_of_nat 10) EmptyString.

(** [str.startswith]: [startswith s p] is [s.startswith(p)]. *)
Fixpoint startswith (s p : string) : bool :=
  match p with
  | EmptyString => true
  | String c p' =>
      match s with
      | EmptyString => false
      | String d s' => if Ascii.eqb c d then startswith s' p' else false
      end
  end.

(** [sep.join(items)]. *)
Fixpoint join (sep : string) (items : list string) : string :=
  match items with
  | [] => EmptyString
  | s :: rest =>
      match rest with
      | [] => s
      | _ :: _ => s +:+ sep +:+ join sep rest
      end
  end.

(** Plain left-to-right concatenation of a list of strings. *)
Definition concat_all (items : list string) : string :=
  foldr String.app EmptyString items.

(** ** The Vision API result hierarchy (google.cloud.vision, protobuf) *)

(** [TextAnnotation.DetectedBreak.BreakType], with its wire values. *)
Inductive BreakType :=
  UNKNOWN | SPACE | SURE_SPACE | EOL_SURE_SPACE | HYPHEN | LINE_BREAK.

Definition BreakType_value (b : BreakType) : Z :=
  match b with
  | UNKNOWN => 0 | SPACE => 1 | SURE_SPACE => 2
  | EOL_SURE_SPACE => 3 | HYPHEN => 4 | LINE_BREAK => 5
  end.

(** [TextAnnotation.DetectedBreak]: a message with two fields. *)
Record DetectedBreak := { break_type : BreakType; is_prefix : bool }.

(** [TextAnnotation.TextProperty]; [detected_break] is a message field, so
    it has presence: [None] is "not set". *)
Record TextProperty := { detected_break_field : option DetectedBreak }.

Record Vertex := { vx : Z; vy : Z }.
Record BoundingPoly := { vertices : list Vertex }.

Record Symbol := {
  symbol_property : TextProperty;
  symbol_bounding_box : BoundingPoly;
  symbol_text : string }.

Record Word := { word_bounding_box : BoundingPoly; symbols : list Symbol }.
Record Paragraph := { para_bounding_box : BoundingPoly; words : list Word }.
Record Block := { block_bounding_box : BoundingPoly; paragraphs : list Paragraph }.
Record Page := { blocks : list Block }.
Record TextAnnotation := { pages : list Page; annotation_text : string }.
Record AnnotateImageResponse := { full_text_annotation : TextAnnotation }.

(** [msg.HasField('detected_break')]. *)
Definition HasField_detected_break (p : TextProperty) : bool :=
  match detected_break_field p with Some _ => true | None => false end.

(** Reading the attribute [msg.detected_break]: the stored message, or the
    default instance when the field is not set. *)
Definition detected_break (p : TextProperty) : DetectedBreak :=
  match detected_break_field p with
  | Some d => d
  | None => {| break_type := UNKNOWN; is_prefix := false |}
  end.

(** The two kinds of Python value that meet in [get_symbol_text]'s
    comparison: a protobuf message and a member of an [IntEnum]. *)
Inductive pyvalue :=
  | PyMessage (d : DetectedBreak)
  | PyIntEnum (n : Z).

Definition BreakType_eqb (a b : BreakType) : bool :=
  BreakType_value a =? BreakType_value b.

(** Python's [==] on these values.  Two messages are equal when their
    fields are, two enum members when their integers are; a message never
    equals a value that is not a message (protobuf's [__eq__] answers no,
    and [int.__eq__] does not know messages). *)
Definition py_eq (a b : pyvalue) : bool :=
  match a, b with
  | PyMessage d, PyMessage d' =>
      BreakType_eqb (break_type d) (break_type d')
      && Bool.eqb (is_prefix d) (is_prefix d')
  | PyIntEnum m, PyIntEnum n => m =? n
  | PyMessage _, PyIntEnum _ => false
  | PyIntEnum _, PyMessage _ => false
  end.

(** ** Text reconstruction (cell "get_symbol_text" ... "get_block_text") *)

Definition get_symbol_text (symbol : Symbol) : string :=
  let text := symbol_text symbol in
  if HasField_detected_break (symbol_property symbol) then
    if py_eq (PyMessage (detected_break (symbol_property symbol)))
             (PyIntEnum (BreakType_value LINE_BREAK))
    then text +:+ newline
    else text +:+ " "
  else text.

Definition get_word_text (word : Word) : string :=
  join EmptyString (map get_symbol_text (symbols word)).

Definition get_paragraph_text (para : Paragraph) : string :=
  join EmptyString (map get_word_text (words para)).

Definition get_block_text (block : Block) : string :=
  join EmptyString (map get_paragraph_text (paragraphs block)).

(** ** Arrays, exceptions and library requests *)

(** A numpy [uint8] array as OpenCV uses it for images: height x width for
    a single channel, height x width x channels otherwise. *)
Inductive ndarray :=
  | Array2 (rows : list (list Z))
  | Array3 (rows : list (list (list Z))).

(** Arrays are objects: a variable holds a reference into the store. *)
Abbreviation loc := positive.

Inductive exn :=
  | IndexError
  | TypeError
  | UnboundReference
  | LibraryError (name : string).

Inductive outcome (A : Type) :=
  | Returned (a : A)
  | Raised (e : exn).
Arguments Returned {A} a.
Arguments Raised {A} e.

Abbreviation bytes := (list Byte.byte).

(** Handles of library objects. *)
Record GCSFS := { fs_id : nat }.
Record GCSFile := { file_path : string; file_mode : string }.
Record PILImage := { pil_id : nat }.
Record Axes := { ax_id : nat }.
Record Figure := { fig_id : nat }.

(** tesserocr's page segmentation modes and result levels. *)
Inductive PSM := PSM_AUTO | PSM_SINGLE_COLUMN | PSM_SINGLE_BLOCK | PSM_SPARSE_TEXT.
Inductive RIL := RIL_BLOCK | RIL_PARA | RIL_TEXTLINE | RIL_WORD | RIL_SYMBOL.
Record PyTessBaseAPI := { psm : PSM }.
(** A result iterator standing at a position. *)
Record PyResultIterator := { it_id : nat; it_pos : nat }.

(** The second component of [plt.subplots(1, n)]: a bare [Axes] when there
    is one subplot, an array of them otherwise. *)
Inductive subplots_axs :=
  | OneAxes (ax : Axes)
  | AxesArray (axs : list Axes).

(** What [print] receives. *)
Inductive printable :=
  | PStr (s : string)
  | PList (l : list string).

(** The requests the notebook sends to its libraries, indexed by the type
    of the answer.  Every one of them may also raise.  [cv2.imread] and
    [cv2.imdecode] answer an array or [None]; the drawing functions answer
    the array as it is after drawing; [iterate_level], a generator, is
    taken with all the positions it yields. *)
Inductive libcall : Type -> Type :=
  | GCSFileSystem : libcall GCSFS
  | fs_open (fs : GCSFS) (path mode : string) : libcall GCSFile
  | file_read (f : GCSFile) : libcall bytes
  | file_close (f : GCSFile) : libcall unit
  | cv2_imdecode (buf : bytes) (flags : Z) : libcall (option ndarray)
  | cv2_imread (filename : string) (flags : Z) : libcall (option ndarray)
  | cv2_polylines (img : ndarray) (pts : list (list (Z * Z)))
      (isClosed : bool) (color : Z * Z * Z) (thickness : Z) : libcall ndarray
  | cv2_rectangle (img : ndarray) (pt1 pt2 : Z * Z)
      (color : Z * Z * Z) (thickness : Z) : libcall ndarray
  | Image_fromarray (arr : ndarray) : libcall PILImage
  | Image_save (im : PILImage) (format : string) : libcall bytes
  | document_text_detection (content : bytes) (language_hints : list string)
      : libcall AnnotateImageResponse
  | text_detection (content : bytes) (language_hints : list string)
      : libcall AnnotateImageResponse
  | SetImage (api : PyTessBaseAPI) (im : PILImage) : libcall unit
  | Recognize (api : PyTessBaseAPI) : libcall bool
  | GetIterator (api : PyTessBaseAPI) : libcall PyResultIterator
  | iterate_level (it : PyResultIterator) (level : RIL)
      : libcall (list PyResultIterator)
  | GetUTF8Text (r : PyResultIterator) (level : RIL) : libcall string
  | BoundingBox (r : PyResultIterator) (level : RIL)
      : libcall (option (Z * Z * Z * Z))
  | plt_figure (figsize : Z * Z) : libcall unit
  | plt_subplots (nrows ncols : Z) (figsize : Z * Z)
      : libcall (Figure * subplots_axs)
  | plt_imshow (img : loc) (data : ndarray) : libcall unit
  | plt_title (s : string) : libcall unit
  | plt_show : libcall unit
  | ax_set_title (ax : Axes) (s : string) : libcall unit
  | ax_imshow (ax : Axes) (img : loc) (data : ndarray) : libcall unit
  | print (args : list printable) : libcall unit.

(** One request together with the answer it got. *)
Inductive event :=
  | Event {X : Type} (c : libcall X) (o : outcome X).

(** The libraries and everything behind them: the answer to a request may
    depend on all that happened before. *)
Record World := { lib : list event -> forall X, libcall X -> outcome X }.

(** The store of arrays and the history of requests. *)
Record State := { heap : gmap loc ndarray; log : list event }.

(** ** The notebook monad: state passing with exceptions *)

Definition nb (A : Type) : Type := World -> State -> outcome A * State.

Definition ret {A} (a : A) : nb A := fun _ s => (Returned a, s).

Definition raise {A} (e : exn) : nb A := fun _ s => (Raised e, s).

Definition bind {A B} (m : nb A) (k : A -> nb B) : nb B :=
  fun w s =>
    match m w s with
    | (Returned a, s') => k a w s'
    | (Raised e, s') => (Raised e, s')
    end.

Declare Scope nb_scope.
Delimit Scope nb_scope with nb.
Notation "x <- m ;; k" := (bind m (fun x => k))
  (at level 100, m at next level, right associativity) : nb_scope.
Notation "m ;; k" := (bind m (fun _ => k))
  (at level 100, right associativity) : nb_scope.
Local Open Scope nb_scope.

(** A library request: ask the world, record question and answer. *)
Definition call {X} (c : libcall X) : nb X :=
  fun w s =>
    let o := lib w (log s) X c in
    (o, {| heap := heap s; log := log s ++ [Event c o] |}).

(** [with open as h: body]: the exit action runs however the body ends, and
    does not swallow the body's exception. *)
Definition with_ {H A} (enter : nb H) (exit : H -> nb unit) (body : H -> nb A)
  : nb A :=
  fun w s =>
    match enter w s with
    | (Raised e, s1) => (Raised e, s1)
    | (Returned h, s1) =>
        match body h w s1 with
        | (o, s2) =>
            match exit h w s2 with
            | (Returned _, s3) => (o, s3)
            | (Raised e', s3) => (Raised e', s3)
            end
        end
    end.

(** A [for] loop over a list, threading the local variables [acc]. *)
Fixpoint for_acc {X A} (xs : list X) (acc : A) (body : A -> X -> nb A) : nb A :=
  match xs with
  | [] => ret acc
  | x :: rest => acc' <- body acc x ;; for_acc rest acc' body
  end.

Definition for_each {X} (xs : list X) (body : X -> nb unit) : nb unit :=
  for_acc xs tt (fun _ x => body x).

(** Reading the array behind a reference. *)
Definition load (l : loc) : nb ndarray :=
  fun _ s =>
    match heap s !! l with
    | Some a => (Returned a, s)
    | None => (Raised UnboundReference, s)
    end.

(** Overwriting the array behind a reference (in-place update). *)
Definition store (l : loc) (a : ndarray) : nb unit :=
  fun _ s =>
    match heap s !! l with
    | Some _ => (Returned tt, {| heap := <[l := a]> (heap s); log := log s |})
    | None => (Raised UnboundReference, s)
    end.

(** A new array object. *)
Definition new_array (a : ndarray) : nb loc :=
  fun _ s =>
    let l := fresh (dom (heap s)) in
    (Returned l, {| heap := <[l := a]> (heap s); log := log s |}).

(** [img.copy()]: a new object with the same contents. *)
Definition ndarray_copy (img : loc) : nb loc :=
  a <- load img ;; new_array a.

(** [xs[i]]. *)
Definition getitem {A} (xs : list A) (i : nat) : nb A :=
  match xs !! i with
  | Some x => ret x
  | None => raise IndexError
  end.

(** Iterating over what [plt.subplots] gave, as [zip(..., axs)] does: a bare
    [Axes] is not iterable. *)
Definition iter_axs (axs : subplots_axs) : nb (list Axes) :=
  match axs with
  | AxesArray l => ret l
  | OneAxes _ => raise TypeError
  end.

(** An array handed back by a library becomes an object of the store;
    Python's [None] stays [None]. *)
Definition as_object (r : option ndarray) : nb (option loc) :=
  match r with
  | Some a => l <- new_array a ;; ret (Some l)
  | None => ret None
  end.

(** ** Cell "show_image, imread_wrapper" *)

Definition IMREAD_COLOR : Z := 1.

Definition show_image (img : loc) (title : string) : nb unit :=
  call (plt_figure (5, 88)) ;;
  data <- load img ;;
  call (plt_imshow img data) ;;
  call (plt_title title) ;;
  call plt_show.

Definition imread_wrapper (uri : string) : nb (option loc) :=
  if startswith uri "gs://" then
    with_ (fs <- call GCSFileSystem ;; call (fs_open fs uri "rb"))
          (fun f => call (file_close f))
          (fun f =>
             arr <- call (file_read f) ;;
             img <- call (cv2_imdecode arr IMREAD_COLOR) ;;
             as_object img)
  else
    img <- call (cv2_imread uri IMREAD_COLOR) ;;
    as_object img.

(** ** Cells "tesseract_modes" and "tesseract_ocr, display_tesseract_results" *)

Definition tesseract_modes : list (string * PyTessBaseAPI) :=
  [ ("Tesseract SINGLE BLOCK"%string, {| psm := PSM_SINGLE_BLOCK |});
    ("Tesseract SPARSE TEXT"%string, {| psm := PSM_SPARSE_TEXT |});
    ("Tesseract SINGLE COLUMN"%string, {| psm := PSM_SINGLE_COLUMN |}) ].

Definition tesseract_ocr (tesseract : PyTessBaseAPI) (img : loc)
  : nb PyResultIterator :=
  data <- load img ;;
  pil_image <- call (Image_fromarray data) ;;
  call (SetImage tesseract pil_image) ;;
  call (Recognize tesseract) ;;
  call (GetIterator tesseract).

(** [cv2.rectangle(img, pt1, pt2, color, thickness)] draws in place. *)
Definition rectangle (img : loc) (pt1 pt2 : Z * Z) (color : Z * Z * Z)
    (thickness : Z) : nb unit :=
  data <- load img ;;
  drawn <- call (cv2_rectangle data pt1 pt2 color thickness) ;;
  store img drawn.

(** [bb[i]] on what [BoundingBox] returned. *)
Definition box_corners (bb : option (Z * Z * Z * Z)) : nb ((Z * Z) * (Z * Z)) :=
  match bb with
  | Some (x1, y1, x2, y2) => ret ((x1, y1), (x2, y2))
  | None => raise TypeError
  end.

Definition display_tesseract_results (img : loc) (level : RIL) : nb unit :=
  let n := Z.of_nat (length tesseract_modes) in
  fig_axs <- call (plt_subplots 1 n (5 * n, 88)) ;;
  axs <- iter_axs (snd fig_axs) ;;
  for_each (zip tesseract_modes axs) (fun mode_ax =>
    let name := fst (fst mode_ax) in
    let tesseract := snd (fst mode_ax) in
    let ax := snd mode_ax in
    results <- tesseract_ocr tesseract img ;;
    _img <- ndarray_copy img ;;
    rs <- call (iterate_level results level) ;;
    tokens <- for_acc rs [] (fun tokens r =>
      text <- call (GetUTF8Text r level) ;;
      let tokens := tokens ++ [text] in
      bb <- call (BoundingBox r level) ;;
      pts <- box_corners bb ;;
      rectangle _img (fst pts) (snd pts) (255, 0, 0) 2 ;;
      ret tokens) ;;
    call (print [PStr name]) ;;
    call (print [PList tokens]) ;;
    call (print []) ;;
    call (ax_set_title ax name) ;;
    data <- load _img ;;
    call (ax_imshow ax _img data)).

(** ** Cell "google_document_text_detection, google_text_detection" *)

Definition google_document_text_detection (img : loc) : nb Page :=
  data <- load img ;;
  img_pil <- call (Image_fromarray data) ;;
  byte_image <- call (Image_save img_pil "PNG") ;;
  image_response <- call (document_text_detection byte_image ["en"%string]) ;;
  page <- getitem (pages (full_text_annotation image_response)) 0 ;;
  ret page.

Definition google_text_detection (img : loc) : nb Page :=
  data <- load img ;;
  img_pil <- call (Image_fromarray data) ;;
  byte_image <- call (Image_save img_pil "PNG") ;;
  image_response <- call (text_detection byte_image ["en"%string]) ;;
  page <- getitem (pages (full_text_annotation image_response)) 0 ;;
  ret page.

(** ** Cell "add_bounding_box ... display_google_results" *)

(** [cv2.polylines(img, [np.array(...)], True, (255, 0, 0), 2)] draws in
    place on the array it is given. *)
Definition add_bounding_box (img : loc) (bb : list Vertex) : nb unit :=
  data <- load img ;;
  drawn <- call (cv2_polylines data [map (fun point => (vx point, vy point)) bb]
                   true (255, 0, 0) 2) ;;
  store img drawn.

Definition get_google_words (page : Page) (img : loc) : nb (list string * loc) :=
  _img <- ndarray_copy img ;;
  texts <- for_acc (blocks page) [] (fun texts block =>
    for_acc (paragraphs block) texts (fun texts para =>
      for_acc (words para) texts (fun texts word =>
        let texts := texts ++ [get_word_text word] in
        add_bounding_box _img (vertices (word_bounding_box word)) ;;
        ret texts))) ;;
  ret (texts, _img).

Definition get_google_paragraphs (page : Page) (img : loc)
  : nb (list string * loc) :=
  _img <- ndarray_copy img ;;
  texts <- for_acc (blocks page) [] (fun texts block =>
    for_acc (paragraphs block) texts (fun texts para =>
      let texts := texts ++ [get_paragraph_text para] in
      add_bounding_box _img (vertices (para_bounding_box para)) ;;
      ret texts)) ;;
  ret (texts, _img).

Definition get_google_blocks (page : Page) (img : loc) : nb (list string * loc) :=
  _img <- ndarray_copy img ;;
  texts <- for_acc (blocks page) [] (fun texts block =>
    let texts := texts ++ [get_block_text block] in
    add_bounding_box _img (vertices (block_bounding_box block)) ;;
    ret texts) ;;
  ret (texts, _img).

Definition display_google_results (pages : list (string * Page)) (img : loc)
    (func : Page -> loc -> nb (list string * loc)) : nb unit :=
  let n := Z.of_nat (length pages) in
  fig_axs <- call (plt_subplots 1 n (5 * n, 88)) ;;
  axs <- iter_axs (snd fig_axs) ;;
  for_each (zip pages axs) (fun page_ax =>
    let name := fst (fst page_ax) in
    let page := snd (fst page_ax) in
    let ax := snd page_ax in
    texts_img <- func page img ;;
    call (print [PStr name]) ;;
    call (print [PList (fst texts_img)]) ;;
    call (print []) ;;
    data <- load (snd texts_img) ;;
    call (ax_imshow ax (snd texts_img) data) ;;
    call (ax_set_title ax name)) ;;
  call plt_show.

(** ** Cell "PERFORM_THRESHOLDING": OpenCV's array functions

    [cv2.cvtColor] and [cv2.threshold] compute new arrays from their
    arguments.  Their element-wise rules are written out; the numeric
    kernels whose exact arithmetic belongs to OpenCV (the luminance of a
    pixel, the thresholds that Otsu's method and the triangle method
    select) are parameters. *)

Record Cv2Kernels := {
  gray_of_bgr : Z -> Z -> Z -> Z;
  getThreshVal_Otsu_8u : list (list Z) -> Z;
  getThreshVal_Triangle_8u : list (list Z) -> Z }.

Inductive ColorConversionCode := COLOR_BGR2GRAY | COLOR_GRAY2BGR.

Definition THRESH_BINARY : Z := 0.
Definition THRESH_BINARY_INV : Z := 1.
Definition THRESH_TRUNC : Z := 2.
Definition THRESH_TOZERO : Z := 3.
Definition THRESH_TOZERO_INV : Z := 4.
Definition THRESH_MASK : Z := 7.
Definition THRESH_OTSU : Z := 8.
Definition THRESH_TRIANGLE : Z := 16.

Definition cv2_error {A} : outcome A := Raised (LibraryError "cv2.error").

Definition of_option {A} (o : option A) : outcome A :=
  match o with Some a => Returned a | None => cv2_error end.

(** One pixel, BGR (or BGRA) to gray. *)
Definition gray_pixel (k : Cv2Kernels) (px : list Z) : option Z :=
  match px with
  | [b; g; r] => Some (gray_of_bgr k b g r)
  | [b; g; r; _] => Some (gray_of_bgr k b g r)
  | _ => None
  end.

(** One pixel, gray to BGR: the value in all three channels. *)
Definition bgr_pixel (px : list Z) : option (list Z) :=
  match px with
  | [v] => Some [v; v; v]
  | _ => None
  end.

(** An array without a single pixel: no row, or rows of width zero. *)
Definition no_pixels {A} (rows : list (list A)) : bool :=
  match concat rows with [] => true | _ :: _ => false end.

(** [cv2.cvtColor(src, code)].  OpenCV refuses an empty source and a
    source whose number of channels does not fit the code. *)
Definition cvtColor (k : Cv2Kernels) (src : ndarray) (code : ColorConversionCode)
  : outcome ndarray :=
  match code, src with
  | COLOR_BGR2GRAY, Array3 rows =>
      if no_pixels rows then cv2_error
      else of_option (Array2 <$> mapM (mapM (gray_pixel k)) rows)
  | COLOR_BGR2GRAY, Array2 _ => cv2_error
  | COLOR_GRAY2BGR, Array2 rows =>
      if no_pixels rows then cv2_error
      else Returned (Array3 (map (map (fun v => [v; v; v])) rows))
  | COLOR_GRAY2BGR, Array3 rows =>
      if no_pixels rows then cv2_error
      else of_option (Array3 <$> mapM (mapM bgr_pixel) rows)
  end.

Definition saturate_uint8 (z : Z) : Z := Z.max 0 (Z.min 255 z).

(** The five threshold types, on one element. *)
Definition threshold_value (kind thresh maxval v : Z) : option Z :=
  if kind =? THRESH_BINARY then Some (if v >? thresh then maxval else 0)
  else if kind =? THRESH_BINARY_INV then Some (if v >? thresh then 0 else maxval)
  else if kind =? THRESH_TRUNC then Some (if v >? thresh then thresh else v)
  else if kind =? THRESH_TOZERO then Some (if v >? thresh then v else 0)
  else if kind =? THRESH_TOZERO_INV then Some (if v >? thresh then 0 else v)
  else None.

(** [cv2.threshold(src, thresh, maxval, type)] returns the threshold used
    and the thresholded array.  The bits of [type] above [THRESH_MASK] ask
    for an automatically selected threshold, which needs one channel. *)
Definition threshold (k : Cv2Kernels) (src : ndarray) (thresh maxval type : Z)
  : outcome (Z * ndarray) :=
  let automatic_thresh := Z.land type (Z.lnot THRESH_MASK) in
  let kind := Z.land type THRESH_MASK in
  let imaxval := saturate_uint8 maxval in
  match src with
  | Array2 rows =>
      let used :=
        if automatic_thresh =? THRESH_OTSU then Some (getThreshVal_Otsu_8u k rows)
        else if automatic_thresh =? THRESH_TRIANGLE
             then Some (getThreshVal_Triangle_8u k rows)
        else if automatic_thresh =? 0 then Some thresh
        else None in
      match used with
      | None => cv2_error
      | Some t =>
          of_option
            (pair t <$> (Array2 <$> mapM (mapM (threshold_value kind t imaxval)) rows))
      end
  | Array3 rows =>
      if automatic_thresh =? 0 then
        of_option
          (pair thresh <$>
             (Array3 <$> mapM (mapM (mapM (threshold_value kind thresh imaxval))) rows))
      else cv2_error
  end.

(** The conditional of the cell, on the contents of [img]. *)
Definition preprocess (k : Cv2Kernels) (PERFORM_THRESHOLDING : bool)
    (img : ndarray) : outcome ndarray :=
  if PERFORM_THRESHOLDING then
    match cvtColor k img COLOR_BGR2GRAY with
    | Raised e => Raised e
    | Returned gray =>
        match threshold k gray 0 255 (Z.lor THRESH_BINARY THRESH_OTSU) with
        | Raised e => Raised e
        | Returned (_, img) => cvtColor k img COLOR_GRAY2BGR
        end
    end
  else Returned img.

(** The single-channel intermediate of [preprocess]: what [cv2.threshold]
    returns, before the conversion back to three channels. *)
Definition thresholded (k : Cv2Kernels) (img : ndarray) : outcome ndarray :=
  match cvtColor k img COLOR_BGR2GRAY with
  | Raised e => Raised e
  | Returned gray =>
      match threshold k gray 0 255 (Z.lor THRESH_BINARY THRESH_OTSU) with
      | Raised e => Raised e
      | Returned (_, img) => Returned img
      end
  end.

(** ** Specifications of notebook code *)

(** [hoare w P m Q]: in world [w], from any state satisfying [P], running
    [m] ends (by returning or by raising) in an outcome and a state
    satisfying [Q]. *)
Definition hoare {A} (w : World) (P : State -> Prop) (m : nb A)
    (Q : outcome A -> State -> Prop) : Prop :=
  forall s, P s -> Q (m w s).1 (m w s).2.

(** Every array of [s] is still there in [s'], with the same contents. *)
Definition unchanged (s s' : State) : Prop :=
  forall l a, heap s !! l = Some a -> heap s' !! l = Some a.

(** The image an event put on a subplot, if it is such an event. *)
Definition shown_image (ev : event) : option loc :=
  match ev with
  | Event c _ =>
      match c with
      | ax_imshow _ img _ => Some img
      | _ => None
      end
  end.

Definition shown_images (tr : list event) : list loc := omap shown_image tr.


(** A renderer that shows one image per engine configuration gives each
    configuration its own new image. *)
Definition annotates_own_copies (w : World) (s : State) (m : nb unit) : Prop :=
  unchanged s (m w s).2 /\
  exists tr,
    log (m w s).2 = log s ++ tr /\
    NoDup (shown_images tr) /\
    forall l, l ∈ shown_images tr -> heap s !! l = None.

(** [tr] is what happened since [s0], and the images shown in it are
    distinct arrays that did not exist in [s0]. *)
Definition shows (s0 s : State) (tr : list event) : Prop :=
  log s = log s0 ++ tr /\
  NoDup (shown_images tr) /\
  forall l, l ∈ shown_images tr -> heap s0 !! l = None /\ is_Some (heap s !! l).

(** Between two engine configurations of a display loop. *)
Definition displaying (s0 s : State) : Prop :=
  unchanged s0 s /\ exists tr, shows s0 s tr.

(** While one configuration annotates its image [l], not shown yet. *)
Definition annotating (s0 : State) (l : loc) (s : State) : Prop :=
  unchanged s0 s /\ is_Some (heap s !! l) /\
  exists tr, shows s0 s tr /\ l ∉ shown_images tr.

(** What the renderer of one configuration promises to a display loop:
    when it returns, its image is a new one, not shown yet. *)
Definition renders {A} (w : World) (s0 : State) (m : nb (A * loc)) : Prop :=
  hoare w (displaying s0) m
    (fun o s => match o with
                | Returned r => heap s0 !! r.2 = None /\ annotating s0 r.2 s
                | Raised _ => displaying s0 s
                end).

(** The nodes of a page at each level, in traversal order. *)
Definition page_paragraphs (page : Page) : list Paragraph :=
  block ← blocks page; paragraphs block.

Definition page_words (page : Page) : list Word :=
  para ← page_paragraphs page; words para.

(** Drawing a polyline never fails in this world. *)
Definition polylines_succeeds (w : World) : Prop :=
  forall history data pts isClosed color thickness,
    exists drawn,
      lib w history _ (cv2_polylines data pts isClosed color thickness)
      = Returned drawn.

(** [m], run in [w] from [s], returns [a]. *)
Definition returns {A} (w : World) (s : State) (m : nb A) (a : A) : Prop :=
  (m w s).1 = Returned a.

(** ** Traces of library requests *)

(** [answered w h tr]: from history [h], the requests of [tr], made in this
    order, get from [w] the answers recorded in [tr]. *)
Definition answer_of (w : World) (h : list event) (ev : event) : Prop :=
  match ev with
  | Event c o => lib w h _ c = o
  end.

Fixpoint answered (w : World) (h tr : list event) : Prop :=
  match tr with
  | [] => True
  | ev :: tr' => answer_of w h ev /\ answered w (h ++ [ev]) tr'
  end.

(** The exception an event ended with, if it did. *)
Definition failure (ev : event) : option exn :=
  match ev with
  | Event _ (Raised e) => Some e
  | Event _ (Returned _) => None
  end.

(** Closing a file: the one request made after a failure, by [with]. *)
Definition is_close (ev : event) : bool :=
  match ev with
  | Event c _ => match c with file_close _ => true | _ => false end
  end.

(** The requests of a successful load from cloud storage: the storage
    client hands over the bytes, the decoder turns them into [img]. *)
Definition cloud_load (uri : string) (fs : GCSFS) (f : GCSFile) (buf : bytes)
    (img : option ndarray) : list event :=
  [ Event GCSFileSystem (Returned fs);
    Event (fs_open fs uri "rb") (Returned f);
    Event (file_read f) (Returned buf);
    Event (cv2_imdecode buf IMREAD_COLOR) (Returned img);
    Event (file_close f) (Returned tt) ].

(** The one request of a load from the local file system. *)
Definition local_load (uri : string) (img : option ndarray) : list event :=
  [ Event (cv2_imread uri IMREAD_COLOR) (Returned img) ].

(** The requests of a Vision call: encode, then submit with the hint. *)
Definition detection_requests (data : ndarray) (pil : PILImage) (buf : bytes)
    (endpoint : bytes -> list string -> libcall AnnotateImageResponse)
    (resp : AnnotateImageResponse) : list event :=
  [ Event (Image_fromarray data) (Returned pil);
    Event (Image_save pil "PNG") (Returned buf);
    Event (endpoint buf ["en"]) (Returned resp) ].

(** [imread_wrapper] signals an error. *)
Definition signals_error (w : World) (s : State) (uri : string) : Prop :=
  exists e, (imread_wrapper uri w s).1 = Raised e.

(** The locator has the scheme of cloud object storage. *)
Definition denotes_cloud_storage (uri : string) : Prop :=
  exists rest, uri = "gs://" +:+ rest.

(** The exceptions raised by the requests of a trace, in order. *)
Definition failures (tr : list event) : list exn := omap failure tr.

(** After the first request that fails, nothing is asked any more, except
    for closing the file a [with] block holds. *)
Fixpoint stops_at_failure (tr : list event) : bool :=
  match tr with
  | [] => true
  | ev :: rest =>
      match failure ev with
      | Some _ => forallb is_close rest
      | None => stops_at_failure rest
      end
  end.

(** The errors of the notebook's own expressions: subscripting and
    iterating. ([UnboundReference] is the store's.) *)
Definition python_error (e : exn) : Prop :=
  e = IndexError \/ e = TypeError \/ e = UnboundReference.

(** [m] handles no exception.  Whatever the world answers: its requests
    stop at the first failure; it returns only if no request failed; and
    if it raises, it raises the exception of the failed request (the last
    one, should closing the file fail as well), or, no request having
    failed, one of [own]. *)
Definition propagates {A} (own : exn -> Prop) (w : World) (m : nb A) : Prop :=
  forall s, exists tr,
    log (m w s).2 = log s ++ tr /\
    answered w (log s) tr /\
    stops_at_failure tr = true /\
    match (m w s).1 with
    | Returned _ => failures tr = []
    | Raised e => last (failures tr) = Some e \/ (failures tr = [] /\ own e)
    end.

Definition nothing (e : exn) : Prop := False.

(** Requests to the object-storage client. *)
Definition is_storage_request (ev : event) : bool :=
  match ev with
  | Event c _ =>
      match c with
      | GCSFileSystem | fs_open _ _ _ | file_read _ | file_close _ => true
      | _ => false
      end
  end.

Definition uses_storage_client (tr : list event) : bool :=
  existsb is_storage_request tr.

(** The paths (and flags) given to the local-file decoder [cv2.imread]. *)
Definition local_read (ev : event) : option (string * Z) :=
  match ev with
  | Event c _ =>
      match c with
      | cv2_imread filename flags => Some (filename, flags)
      | _ => None
      end
  end.

Definition local_reads (tr : list event) : list (string * Z) :=
  omap local_read tr.

(** ** Shapes and values of arrays *)







(** ** Sample results and worlds, used to exercise the theorems *)

Definition no_box : BoundingPoly := {| vertices := [] |}.

Definition unit_box : BoundingPoly :=
  {| vertices := [ {| vx := 0; vy := 0 |}; {| vx := 1; vy := 0 |};
                   {| vx := 1; vy := 1 |}; {| vx := 0; vy := 1 |} ] |}.

Definition sym (t : string) (b : option BreakType) : Symbol :=
  {| symbol_property :=
       {| detected_break_field :=
            (fun ty => {| break_type := ty; is_prefix := false |}) <$> b |};
     symbol_bounding_box := unit_box;
     symbol_text := t |}.

(** "Hi" followed by a space, then "yo" followed by the end of the line. *)
Definition word_Hi : Word :=
  {| word_bounding_box := unit_box;
     symbols := [sym "H" None; sym "i" (Some SPACE)] |}.
Definition word_yo : Word :=
  {| word_bounding_box := unit_box;
     symbols := [sym "y" None; sym "o" (Some LINE_BREAK)] |}.
Definition para_Hi_yo : Paragraph :=
  {| para_bounding_box := unit_box; words := [word_Hi; word_yo] |}.
Definition block_Hi_yo : Block :=
  {| block_bounding_box := unit_box; paragraphs := [para_Hi_yo] |}.
Definition page_Hi_yo : Page := {| blocks := [block_Hi_yo; block_Hi_yo] |}.

(** A world put together from the contents of a bucket, of the local disk,
    an image decoder and the answer of the Vision service.  The libraries
    behave as documented: gcsfs raises [FileNotFoundError] for an object
    that is not there; [cv2.imread] and [cv2.imdecode] return [None] when
    the file cannot be read or the bytes are not an image; the drawing
    functions are kept trivial (they hand the array back). *)
Definition FileNotFoundError : exn := LibraryError "FileNotFoundError".

Definition world_of (objects files : string -> option bytes)
    (decode : bytes -> option ndarray) (response : AnnotateImageResponse)
  : World :=
  {| lib := fun _ X c =>
       match c in libcall X return outcome X with
       | GCSFileSystem => Returned {| fs_id := 0 |}
       | fs_open _ path mode =>
           match objects path with
           | Some _ => Returned {| file_path := path; file_mode := mode |}
           | None => Raised FileNotFoundError
           end
       | file_read f =>
           match objects (file_path f) with
           | Some content => Returned content
           | None => Raised FileNotFoundError
           end
       | file_close _ => Returned tt
       | cv2_imdecode buf _ => Returned (decode buf)
       | cv2_imread filename _ => Returned (files filename ≫= decode)
       | cv2_polylines data _ _ _ _ => Returned data
       | cv2_rectangle data _ _ _ _ => Returned data
       | Image_fromarray _ => Returned {| pil_id := 0 |}
       | Image_save _ _ => Returned [Byte.x89; Byte.x50; Byte.x4e; Byte.x47]
       | document_text_detection _ _ => Returned response
       | text_detection _ _ => Returned response
       | SetImage _ _ => Returned tt
       | Recognize _ => Returned true
       | GetIterator _ => Returned {| it_id := 0; it_pos := 0 |}
       | iterate_level it _ => Returned [it]
       | GetUTF8Text _ _ => Returned "Hi"
       | BoundingBox _ _ => Returned (Some (0, 0, 1, 1))
       | plt_figure _ => Returned tt
       | plt_subplots _ ncols _ =>
           Returned ({| fig_id := 0 |},
                     if ncols =? 1 then OneAxes {| ax_id := 0 |}
                     else AxesArray
                            (map (fun i => {| ax_id := i |})
                                 (seq 0 (Z.to_nat ncols))))
       | plt_imshow _ _ => Returned tt
       | plt_title _ => Returned tt
       | plt_show => Returned tt
       | ax_set_title _ _ => Returned tt
       | ax_imshow _ _ _ => Returned tt
       | print _ => Returned tt
       end |}.

(** A 1 x 2 colour image and the bytes it is stored as. *)
Definition tiny_image : ndarray := Array3 [[[10; 20; 30]; [200; 210; 220]]].
Definition tiny_bytes : bytes := [Byte.x01; Byte.x02].
Definition garbage_bytes : bytes := [Byte.xff].

Definition bytes_eqb (a b : bytes) : bool :=
  bool_decide (map Byte.to_N a = map Byte.to_N b).

Definition sample_decode (buf : bytes) : option ndarray :=
  if bytes_eqb buf tiny_bytes then Some tiny_image else None.

Definition sample_bucket (path : string) : option bytes :=
  if decide (path = "gs://bucket/receipt.jpg") then Some tiny_bytes
  else if decide (path = "gs://bucket/notes.txt") then Some garbage_bytes
  else None.

Definition sample_disk (path : string) : option bytes :=
  if decide (path = "img/receipt.jpg") then Some tiny_bytes
  else if decide (path = "GS://bucket/receipt.jpg") then Some tiny_bytes
  else if decide (path = "notes.txt") then Some garbage_bytes
  else None.

Definition sample_response : AnnotateImageResponse :=
  {| full_text_annotation :=
       {| pages := [page_Hi_yo]; annotation_text := "Hi yo " |} |}.

Definition sample_world : World :=
  world_of sample_bucket sample_disk sample_decode sample_response.

Definition empty_state : State := {| heap := ∅; log := [] |}.

(** A state in which the notebook's [img] is bound to [tiny_image]. *)
Definition img_ref : loc := 1%positive.
Definition loaded_state : State :=
  {| heap := {[ img_ref := tiny_image ]}; log := [] |}.

(** OpenCV's kernels for 8-bit images, to run [preprocess] with.

    The luminance is computed in fixed point with 15 fractional bits, the
    weights of red, green and blue adding up to [2^15]. *)
Definition RY15 : Z := 9798.
Definition GY15 : Z := 19235.
Definition BY15 : Z := 3735.
Definition gray_shift : Z := 15.

Definition fixed_point_gray (b g r : Z) : Z :=
  Z.shiftr (b * BY15 + g * GY15 + r * RY15 + Z.shiftl 1 (gray_shift - 1))
    gray_shift.

(** Otsu's threshold is computed in double precision (IEEE 754 binary64,
    rounding to nearest), in the order of operations of
    [getThreshVal_Otsu_8u]: the threshold kept is the first one whose
    between-class variance, as rounded, exceeds all before. *)
Abbreviation double := SpecFloat.spec_float.

Definition double_add : double -> double -> double := SpecFloat.SFadd 53 1024.
Definition double_sub : double -> double -> double := SpecFloat.SFsub 53 1024.
Definition double_mul : double -> double -> double := SpecFloat.SFmul 53 1024.
Definition double_div : double -> double -> double := SpecFloat.SFdiv 53 1024.
Definition double_ltb : double -> double -> bool := SpecFloat.SFltb.

Definition double_of_Z (z : Z) : double :=
  SpecFloat.binary_normalize 53 1024 z 0 false.

Definition FLT_EPSILON : double :=
  double_div (double_of_Z 1) (double_of_Z (2 ^ 23)).

Definition double_min (a b : double) : double :=
  if double_ltb b a then b else a.
Definition double_max (a b : double) : double :=
  if double_ltb a b then b else a.

(** The histogram: how many pixels have gray level [i]. *)
Definition histogram (vals : list Z) (i : Z) : Z :=
  Z.of_nat (length (filter (fun v => v = i) vals)).

Record otsu_state := {
  otsu_mu1 : double;
  otsu_q1 : double;
  max_sigma : double;
  max_val : Z }.

Definition otsu_step (vals : list Z) (scale mu : double)
    (st : otsu_state) (i : Z) : otsu_state :=
  let p_i := double_mul (double_of_Z (histogram vals i)) scale in
  let mu1 := double_mul (otsu_mu1 st) (otsu_q1 st) in
  let q1 := double_add (otsu_q1 st) p_i in
  let q2 := double_sub (double_of_Z 1) q1 in
  if double_ltb (double_min q1 q2) FLT_EPSILON
     || double_ltb (double_sub (double_of_Z 1) FLT_EPSILON) (double_max q1 q2)
  then {| otsu_mu1 := mu1; otsu_q1 := q1;
          max_sigma := max_sigma st; max_val := max_val st |}
  else
    let mu1 := double_div (double_add mu1 (double_mul (double_of_Z i) p_i)) q1 in
    let mu2 := double_div (double_sub mu (double_mul q1 mu1)) q2 in
    let d := double_sub mu1 mu2 in
    let sigma := double_mul (double_mul (double_mul q1 q2) d) d in
    if double_ltb (max_sigma st) sigma
    then {| otsu_mu1 := mu1; otsu_q1 := q1; max_sigma := sigma; max_val := i |}
    else {| otsu_mu1 := mu1; otsu_q1 := q1;
            max_sigma := max_sigma st; max_val := max_val st |}.

Definition opencv_otsu (rows : list (list Z)) : Z :=
  let vals := concat rows in
  let levels := map Z.of_nat (seq 0 256) in
  let scale :=
    double_div (double_of_Z 1) (double_of_Z (Z.of_nat (length vals))) in
  let mu :=
    double_mul
      (foldl (fun mu i =>
                double_add mu
                  (double_mul (double_of_Z i)
                     (double_of_Z (histogram vals i))))
             (double_of_Z 0) levels)
      scale in
  max_val
    (foldl (otsu_step vals scale mu)
       {| otsu_mu1 := (double_of_Z 0); otsu_q1 := (double_of_Z 0);
          max_sigma := (double_of_Z 0); max_val := 0 |}
       levels).

(** These two kernels, for every run of the cell.  The threshold of the
    triangle method, which the notebook never asks for, is not computed. *)
Definition sample_kernels : Cv2Kernels :=
  {| gray_of_bgr := fixed_point_gray;
     getThreshVal_Otsu_8u := opencv_otsu;
     getThreshVal_Triangle_8u := fun _ => 0 |}.

(** ** Reading traces *)

(** The files the storage client opened (requests that succeeded). *)
Definition opened_file (ev : event) : option GCSFile :=
  match ev with
  | Event c o =>
      match c in libcall X return outcome X -> option GCSFile with
      | fs_open _ _ _ =>
          fun o => match o with Returned f => Some f | Raised _ => None end
      | _ => fun _ => None
      end o
  end.

Definition opened_files (tr : list event) : list GCSFile := omap opened_file tr.

(** The files asked to be closed. *)
Definition closed_file (ev : event) : option GCSFile :=
  match ev with
  | Event c _ =>
      match c with
      | file_close f => Some f
      | _ => None
      end
  end.

Definition closed_files (tr : list event) : list GCSFile := omap closed_file tr.

(** The two Vision endpoints. *)
Inductive endpoint := TEXT_DETECTION | DOCUMENT_TEXT_DETECTION.

Definition endpoint_asked (ev : event) : option endpoint :=
  match ev with
  | Event c _ =>
      match c with
      | text_detection _ _ => Some TEXT_DETECTION
      | document_text_detection _ _ => Some DOCUMENT_TEXT_DETECTION
      | _ => None
      end
  end.

Definition endpoints_asked (tr : list event) : list endpoint :=
  omap endpoint_asked tr.

(** What a [cv2.polylines] request was asked to draw: the polygons, whether
    they are closed, the colour and the thickness. *)
Abbreviation polyline := (list (list (Z * Z)) * bool * (Z * Z * Z) * Z)%type.

Definition polyline_asked (ev : event) : option polyline :=
  match ev with
  | Event c _ =>
      match c with
      | cv2_polylines _ pts isClosed color thickness =>
          Some (pts, isClosed, color, thickness)
      | _ => None
      end
  end.

Definition polylines_asked (tr : list event) : list polyline :=
  omap polyline_asked tr.

(** The outline [add_bounding_box] asks for: one closed polygon through
    the vertices, in red, two pixels thick. *)
Definition outline (bb : BoundingPoly) : polyline :=
  ([map (fun point => (vx point, vy point)) (vertices bb)], true, (255, 0, 0), 2).

(** The arrays handed to PIL, that is, to an OCR engine. *)
Definition array_recognised (ev : event) : option ndarray :=
  match ev with
  | Event c _ =>
      match c with
      | Image_fromarray arr => Some arr
      | _ => None
      end
  end.

Definition arrays_recognised (tr : list event) : list ndarray :=
  omap array_recognised tr.

(** ** Measures of a result *)

(** One if the symbol carries a detected break, of any type. *)
Definition break_count (symbol : Symbol) : nat :=
  if HasField_detected_break (symbol_property symbol) then 1 else 0.

Definition block_symbols (block : Block) : list Symbol :=
  para ← paragraphs block; word ← words para; symbols word.

(** A response of the Vision service without any page. *)
Definition blank_response : AnnotateImageResponse :=
  {| full_text_annotation :=
       {| pages := []; annotation_text := EmptyString |} |}.

Definition blank_world : World :=
  world_of sample_bucket sample_disk sample_decode blank_response.

Definition empty_page : Page := {| blocks := [] |}.

(** ** What a function asks for

    [emits f w m out]: of the requests [m] makes in [w], those that [f]
    picks are, in order, [out] when [m] returns, and a prefix of [out]
    when [m] raises. *)
Definition emits {A B} (f : event -> option B) (w : World) (m : nb A)
    (out : list B) : Prop :=
  forall s, exists tr,
    log (m w s).2 = log s ++ tr /\
    match (m w s).1 with
    | Returned _ => omap f tr = out
    | Raised _ => omap f tr `prefix_of` out
    end.


(** A page with a block and a paragraph in it, but no word. *)
Definition wordless_page : Page :=
  {| blocks :=
       [ {| block_bounding_box := unit_box;
            paragraphs := [ {| para_bounding_box := unit_box; words := [] |} ] |} ] |}.

(** The states a display loop goes through, from [s0], as far as OCR is
    concerned: [img] holds what it held, and that is what every engine was
    given. *)
Definition recognising (s0 : State) (img : loc) (s : State) : Prop :=
  heap s !! img = heap s0 !! img /\
  exists tr,
    log s = log s0 ++ tr /\
    forall arr, arr ∈ arrays_recognised tr -> heap s0 !! img = Some arr.


(** The notebook's list [pages], with the pages two runs gave. *)
Definition pages_of (text_page document_page : Page) : list (string * Page) :=
  [ ("Google Text Detection"%string, text_page);
    ("Google Document Text Detection"%string, document_page) ].

(** The requests of one recognition by Tesseract. *)
Definition ocr_requests (tesseract : PyTessBaseAPI) (data : ndarray)
    (pil : PILImage) (recognised : bool) (results : PyResultIterator)
  : list event :=
  [ Event (Image_fromarray data) (Returned pil);
    Event (SetImage tesseract pil) (Returned tt);
    Event (Recognize tesseract) (Returned recognised);
    Event (GetIterator tesseract) (Returned results) ].

(** The world [w], except that [Recognize] answers [b]. *)
Definition recognize_answers (b : bool) (w : World) : World :=
  {| lib := fun h X c =>
       match c in libcall X return outcome X -> outcome X with
       | Recognize _ => fun _ => Returned b
       | _ => fun o => o
       end (lib w h X c) |}.

(** * Properties *)

(** ** Strings *)

Lemma string_app_nil_r (s : string) : s +:+ EmptyString = s.
Proof.
  induction s as [|c s IH]; [reflexivity|].
  change (String c (s +:+ EmptyString) = String c s). by rewrite IH.
Qed.

Lemma string_app_assoc (s t u : string) : (s +:+ t) +:+ u = s +:+ t +:+ u.
Proof.
  induction s as [|c s IH]; [reflexivity|].
  change (String c ((s +:+ t) +:+ u) = String c (s +:+ t +:+ u)).
  by rewrite IH.
Qed.

Lemma startswith_spec (s p : string) :
  startswith s p = true <-> exists rest, s = p +:+ rest.
Proof.
  revert s. induction p as [|c p IH]; intros s.
  - split; [intros _; exists s; reflexivity | intros _; by destruct s].
  - destruct s as [|d s]; simpl.
    + split; [done | intros [rest H]; discriminate H].
    + destruct (Ascii.eqb_spec c d) as [->|Hne].
      * rewrite IH. split; intros [rest H]; exists rest.
        -- by rewrite H.
        -- change (String d s = String d (p +:+ rest)) in H. congruence.
      * split; [done|]. intros [rest H].
        change (String d s = String c (p +:+ rest)) in H. congruence.
Qed.

Lemma join_empty_sep (items : list string) :
  join EmptyString items = concat_all items.
Proof.
  induction items as [|s rest IH]; [reflexivity|].
  destruct rest as [|t rest'].
  - unfold concat_all. simpl. by rewrite string_app_nil_r.
  - change (join EmptyString (s :: t :: rest')) with (s +:+ EmptyString +:+ join EmptyString (t :: rest')).
    rewrite IH. reflexivity.
Qed.

Lemma concat_all_app (xs ys : list string) :
  concat_all (xs ++ ys) = concat_all xs +:+ concat_all ys.
Proof.
  induction xs as [|x xs IH]; [reflexivity|].
  change (x +:+ concat_all (xs ++ ys) = (x +:+ concat_all xs) +:+ concat_all ys).
  by rewrite IH, string_app_assoc.
Qed.

Lemma concat_all_bind {A} (f : A -> list string) (xs : list A) :
  concat_all (xs ≫= f) = concat_all (map (fun x => concat_all (f x)) xs).
Proof.
  induction xs as [|x xs IH]; [reflexivity|].
  change ((x :: xs) ≫= f) with (f x ++ (xs ≫= f)).
  rewrite concat_all_app, IH. reflexivity.
Qed.

Lemma map_list_bind {A B C} (f : B -> C) (g : A -> list B) (xs : list A) :
  map f (xs ≫= g) = xs ≫= (fun x => map f (g x)).
Proof.
  induction xs as [|x xs IH]; [reflexivity|].
  change ((x :: xs) ≫= g) with (g x ++ (xs ≫= g)).
  rewrite map_app, IH. reflexivity.
Qed.

Lemma list_bind_bind {A B C} (f : A -> list B) (g : B -> list C) (xs : list A) :
  (xs ≫= f) ≫= g = xs ≫= (fun x => f x ≫= g).
Proof.
  induction xs as [|x xs IH]; [reflexivity|].
  change ((x :: xs) ≫= f) with (f x ++ (xs ≫= f)).
  rewrite bind_app, IH. reflexivity.
Qed.

(** ** Text reconstruction *)

(** What [get_symbol_text] appends, case by case on the field. *)
Lemma get_symbol_text_cases (symbol : Symbol) :
  get_symbol_text symbol =
    match detected_break_field (symbol_property symbol) with
    | Some _ => symbol_text symbol +:+ " "
    | None => symbol_text symbol
    end.
Proof.
  unfold get_symbol_text, HasField_detected_break.
  destruct (detected_break_field (symbol_property symbol)); reflexivity.
Qed.

(** C1, at a symbol whose detected break is a line break: the comparison of
    the break message with the enum member [LINE_BREAK] is false, so
    [get_symbol_text] appends a space where the newline was meant. *)
Lemma get_symbol_text_line_break :
  get_symbol_text (sym "o" (Some LINE_BREAK)) = "o " /\
  get_symbol_text (sym "o" (Some LINE_BREAK)) <> "o" +:+ newline.
Proof. split; [reflexivity | discriminate]. Qed.

(** C2: the text of a block is the concatenation, in order, of the texts of
    its paragraphs; of a paragraph, of the texts of its words; of a word,
    of the texts of its symbols. *)
Theorem parent_text_is_concatenation_of_children :
  (forall block : Block,
     get_block_text block
     = concat_all (map get_paragraph_text (paragraphs block))) /\
  (forall para : Paragraph,
     get_paragraph_text para = concat_all (map get_word_text (words para))) /\
  (forall word : Word,
     get_word_text word = concat_all (map get_symbol_text (symbols word))).
Proof.
  repeat split; intros; apply join_empty_sep.
Qed.

(** Across all levels: the text of a block is the concatenation of the
    texts of its symbols in traversal order. *)
Corollary get_block_text_symbols (block : Block) :
  get_block_text block =
    concat_all (map get_symbol_text
      (para ← paragraphs block; word ← words para; symbols word)).
Proof.
  unfold get_block_text. rewrite join_empty_sep.
  rewrite map_list_bind, concat_all_bind. f_equal.
  apply map_ext. intros para.
  rewrite map_list_bind, concat_all_bind.
  unfold get_paragraph_text. rewrite join_empty_sep. f_equal.
  apply map_ext. intros word. unfold get_word_text. by rewrite join_empty_sep.
Qed.

Example get_block_text_Hi_yo : get_block_text block_Hi_yo = "Hi yo ".
Proof. reflexivity. Qed.

(** ** Rules for [hoare] *)

Section Rules.
Context (w : World).

Lemma hoare_conseq {A} (P P' : State -> Prop) (Q Q' : outcome A -> State -> Prop)
    (m : nb A) :
  hoare w P' m Q' ->
  (forall s, P s -> P' s) ->
  (forall o s, Q' o s -> Q o s) ->
  hoare w P m Q.
Proof. intros H HP HQ s Hs. apply HQ, H, HP, Hs. Qed.

Lemma hoare_ret {A} (P : State -> Prop) (Q : outcome A -> State -> Prop) (a : A) :
  (forall s, P s -> Q (Returned a) s) -> hoare w P (ret a) Q.
Proof. intros H s Hs. by apply H. Qed.

Lemma hoare_raise {A} (P : State -> Prop) (Q : outcome A -> State -> Prop) e :
  (forall s, P s -> Q (Raised e) s) -> hoare w P (raise e) Q.
Proof. intros H s Hs. by apply H. Qed.

Lemma hoare_bind {A B} (P : State -> Prop) (R : A -> State -> Prop)
    (Q : outcome B -> State -> Prop) (m : nb A) (k : A -> nb B) :
  hoare w P m (fun o s => match o with
                          | Returned a => R a s
                          | Raised e => Q (Raised e) s
                          end) ->
  (forall a, hoare w (R a) (k a) Q) ->
  hoare w P (bind m k) Q.
Proof.
  intros Hm Hk s Hs. specialize (Hm s Hs). unfold bind.
  destruct (m w s) as [[a|e] s']; simpl in *; [by apply Hk | done].
Qed.

Lemma hoare_call {X} (P : State -> Prop) (Q : outcome X -> State -> Prop)
    (c : libcall X) :
  (forall s, P s ->
     let o := lib w (log s) X c in
     Q o {| heap := heap s; log := log s ++ [Event c o] |}) ->
  hoare w P (call c) Q.
Proof. intros H s Hs. by apply H. Qed.

Lemma hoare_load (P : State -> Prop) (Q : outcome ndarray -> State -> Prop) l :
  (forall s, P s ->
     match heap s !! l with
     | Some a => Q (Returned a) s
     | None => Q (Raised UnboundReference) s
     end) ->
  hoare w P (load l) Q.
Proof.
  intros H s Hs. specialize (H s Hs). unfold load.
  by destruct (heap s !! l).
Qed.

Lemma hoare_store (P : State -> Prop) (Q : outcome unit -> State -> Prop) l a :
  (forall s, P s ->
     match heap s !! l with
     | Some _ => Q (Returned tt) {| heap := <[l := a]> (heap s); log := log s |}
     | None => Q (Raised UnboundReference) s
     end) ->
  hoare w P (store l a) Q.
Proof.
  intros H s Hs. specialize (H s Hs). unfold store.
  by destruct (heap s !! l).
Qed.

Lemma hoare_new_array (P : State -> Prop) (Q : outcome loc -> State -> Prop) a :
  (forall s l, P s -> heap s !! l = None ->
     Q (Returned l) {| heap := <[l := a]> (heap s); log := log s |}) ->
  hoare w P (new_array a) Q.
Proof.
  intros H s Hs. apply H; [done|].
  apply not_elem_of_dom, is_fresh.
Qed.

Lemma hoare_pre_pure {A} (phi : Prop) (P : State -> Prop) (m : nb A)
    (Q : outcome A -> State -> Prop) :
  (phi -> hoare w P m Q) -> hoare w (fun s => phi /\ P s) m Q.
Proof. intros H s [Hphi Hs]. by apply H. Qed.

(** A loop: [I acc rest] holds before the iterations over [rest] with
    local variables [acc]; [E] is what holds if an iteration raises. *)
Lemma hoare_for_acc {X A} (I : A -> list X -> State -> Prop)
    (E : exn -> State -> Prop) (body : A -> X -> nb A) (xs : list X) (acc : A) :
  (forall acc x rest,
     hoare w (I acc (x :: rest)) (body acc x)
       (fun o s => match o with
                   | Returned a => I a rest s
                   | Raised e => E e s
                   end)) ->
  hoare w (I acc xs) (for_acc xs acc body)
    (fun o s => match o with
                | Returned a => I a [] s
                | Raised e => E e s
                end).
Proof.
  intros Hbody. revert acc.
  induction xs as [|x rest IH]; intros acc.
  - by apply hoare_ret.
  - simpl. eapply hoare_bind; [apply Hbody|]. intros a. apply IH.
Qed.

(** The same for an invariant of the state alone, whatever the outcome. *)
Lemma hoare_for_acc_inv {X A} (I : State -> Prop) (body : A -> X -> nb A)
    (xs : list X) (acc : A) :
  (forall acc x, hoare w I (body acc x) (fun _ s => I s)) ->
  hoare w I (for_acc xs acc body) (fun _ s => I s).
Proof.
  intros Hbody.
  eapply hoare_conseq;
    [apply (hoare_for_acc (fun _ _ => I) (fun _ => I)) | done |].
  - intros acc' x _. eapply hoare_conseq; [apply Hbody | done |].
    by intros [?|?] ?.
  - by intros [?|?] ?.
Qed.

End Rules.

(** ** The store: what drawing touches *)

Lemma unchanged_refl (s : State) : unchanged s s.
Proof. by intros l a. Qed.

Lemma unchanged_insert (s0 s : State) (l : loc) (a : ndarray) :
  heap s0 !! l = None ->
  unchanged s0 s ->
  unchanged s0 {| heap := <[l := a]> (heap s); log := log s |}.
Proof.
  intros Hl Hs l' a' Hl'. simpl.
  rewrite lookup_insert_ne; [by apply Hs | congruence].
Qed.

Lemma unchanged_None (s0 s : State) (l : loc) :
  unchanged s0 s -> heap s !! l = None -> heap s0 !! l = None.
Proof.
  intros Hs Hl. destruct (heap s0 !! l) as [a|] eqn:E; [|done].
  apply Hs in E. congruence.
Qed.


(** ** Display loops: one new image per engine configuration *)

Lemma shown_images_snoc (tr : list event) (ev : event) :
  shown_images (tr ++ [ev]) =
    shown_images tr ++ match shown_image ev with Some l => [l] | None => [] end.
Proof.
  unfold shown_images. rewrite omap_app. simpl.
  by destruct (shown_image ev).
Qed.

Lemma shows_quiet (s0 s : State) (tr : list event) (ev : event) :
  shown_image ev = None ->
  shows s0 s tr ->
  shows s0 {| heap := heap s; log := log s ++ [ev] |} (tr ++ [ev]).
Proof.
  intros Hev (Hlog & Hnd & Hfresh). unfold shows.
  rewrite shown_images_snoc, Hev, app_nil_r. simpl.
  split; [by rewrite Hlog, app_assoc | done].
Qed.

Lemma shows_insert (s0 s : State) (tr : list event) (l : loc) (a : ndarray) :
  shows s0 s tr ->
  shows s0 {| heap := <[l := a]> (heap s); log := log s |} tr.
Proof.
  intros (Hlog & Hnd & Hfresh). split; [done|]. split; [done|].
  intros l' Hl'. split.
  - by apply Hfresh.
  - simpl. rewrite lookup_insert. case_decide; [eauto | by apply Hfresh].
Qed.

Section Display.
Context (w : World) (s0 : State).

Lemma call_displaying {X} (c : libcall X) :
  (forall o, shown_image (Event c o) = None) ->
  hoare w (displaying s0) (call c) (fun _ => displaying s0).
Proof.
  intros Hc. apply hoare_call. intros s [Hu [tr Htr]].
  split; [done|]. eexists. by apply shows_quiet.
Qed.

Lemma call_annotating {X} (l : loc) (c : libcall X) :
  (forall o, shown_image (Event c o) = None) ->
  hoare w (annotating s0 l) (call c) (fun _ => annotating s0 l).
Proof.
  intros Hc. apply hoare_call. intros s (Hu & Hsome & tr & Htr & Hl).
  split; [done|]. split; [done|]. exists (tr ++ [Event c (lib w (log s) X c)]).
  split; [by apply shows_quiet|].
  by rewrite shown_images_snoc, Hc, app_nil_r.
Qed.

Lemma load_inv (I : State -> Prop) (l : loc) :
  hoare w I (load l) (fun _ => I).
Proof. apply hoare_load. intros s Hs. by destruct (heap s !! l). Qed.

Lemma store_annotating (l : loc) (a : ndarray) :
  heap s0 !! l = None ->
  hoare w (annotating s0 l) (store l a) (fun _ => annotating s0 l).
Proof.
  intros Hl0. apply hoare_store. intros s (Hu & Hsome & tr & Htr & Hl).
  destruct (heap s !! l) eqn:E; [|done].
  split; [by apply unchanged_insert|].
  split; [simpl; rewrite lookup_insert_eq; eauto|].
  exists tr. split; [by apply shows_insert | done].
Qed.

(** Sequencing under an invariant that holds whatever the outcome. *)
Lemma hoare_seq_inv {A B} (I : State -> Prop) (J : outcome B -> State -> Prop)
    (m : nb A) (k : A -> nb B) :
  hoare w I m (fun _ => I) ->
  (forall e s, I s -> J (Raised e) s) ->
  (forall a, hoare w I (k a) J) ->
  hoare w I (bind m k) J.
Proof.
  intros Hm HJ Hk. eapply hoare_bind with (R := fun _ => I); [|done].
  intros s Hs. specialize (Hm s Hs).
  destruct (m w s) as [[a|e] s']; simpl in *; [done | by apply HJ].
Qed.


Lemma add_bounding_box_annotating (l : loc) (bb : list Vertex) :
  heap s0 !! l = None ->
  hoare w (annotating s0 l) (add_bounding_box l bb) (fun _ => annotating s0 l).
Proof.
  intros Hl. unfold add_bounding_box.
  apply hoare_seq_inv; [apply load_inv | done |]. intros data.
  apply hoare_seq_inv; [by apply call_annotating | done |]. intros drawn.
  by apply store_annotating.
Qed.


Lemma annotating_displaying (l : loc) (s : State) :
  annotating s0 l s -> displaying s0 s.
Proof. intros (Hu & _ & tr & Htr & _). split; eauto. Qed.

Lemma ndarray_copy_displaying (img : loc) :
  hoare w (displaying s0) (ndarray_copy img)
    (fun o s => match o with
                | Returned l => heap s0 !! l = None /\ annotating s0 l s
                | Raised _ => displaying s0 s
                end).
Proof.
  unfold ndarray_copy. eapply hoare_bind with (R := fun _ => displaying s0).
  - apply hoare_load. intros s Hs. by destruct (heap s !! img).
  - intros a. apply hoare_new_array. intros s l [Hu [tr Htr]] Hl.
    assert (heap s0 !! l = None) by eauto using unchanged_None.
    split; [done|]. split; [by apply unchanged_insert|].
    split; [simpl; rewrite lookup_insert_eq; eauto|].
    exists tr. split; [by apply shows_insert|].
    intros Hin. destruct Htr as (_ & _ & Hfresh).
    destruct (Hfresh l Hin) as [_ [? ?]]. congruence.
Qed.

(** Showing the annotated image ends a configuration's turn. *)
Lemma imshow_annotated (l : loc) (ax : Axes) (data : ndarray) :
  heap s0 !! l = None ->
  hoare w (annotating s0 l) (call (ax_imshow ax l data))
    (fun _ => displaying s0).
Proof.
  intros Hl0. apply hoare_call.
  intros s (Hu & Hsome & tr & (Hlog & Hnd & Hfresh) & Hl) o.
  split; [done|]. exists (tr ++ [Event (ax_imshow ax l data) o]).
  unfold shows. rewrite shown_images_snoc. simpl.
  split; [by rewrite Hlog, app_assoc|]. split.
  - apply NoDup_app. split; [done|]. split; [|apply NoDup_singleton].
    intros l' Hl' ->%list_elem_of_singleton. done.
  - intros l' [Hl'| ->%list_elem_of_singleton]%elem_of_app; [by apply Hfresh|].
    done.
Qed.

End Display.

Section Renderers.
Context (w : World) (s0 : State).

(** Copy, then loops that only draw on the copy. *)
Lemma renderer_annotating (img : loc) (loops : loc -> nb (list string)) :
  (forall l, heap s0 !! l = None ->
     hoare w (annotating s0 l) (loops l) (fun _ => annotating s0 l)) ->
  renders w s0 (_img <- ndarray_copy img ;; texts <- loops _img ;; ret (texts, _img)).
Proof.
  intros Hloops.
  eapply hoare_bind
    with (R := fun l s => heap s0 !! l = None /\ annotating s0 l s);
    [apply ndarray_copy_displaying|].
  intros l. eapply hoare_bind
    with (R := fun _ s => heap s0 !! l = None /\ annotating s0 l s).
  - intros s [Hl Hs]. specialize (Hloops l Hl s Hs).
    destruct (loops l w s) as [[texts|e] s']; simpl in *;
      [done | by eapply annotating_displaying].
  - intros texts. by apply hoare_ret.
Qed.

Lemma get_google_words_renders (page : Page) (img : loc) :
  renders w s0 (get_google_words page img).
Proof.
  apply renderer_annotating. intros l Hl.
  apply hoare_for_acc_inv. intros texts block.
  apply hoare_for_acc_inv. intros texts' para.
  apply hoare_for_acc_inv. intros texts'' word.
  apply hoare_seq_inv; [by apply add_bounding_box_annotating | done |].
  intros _. by apply hoare_ret.
Qed.

Lemma get_google_paragraphs_renders (page : Page) (img : loc) :
  renders w s0 (get_google_paragraphs page img).
Proof.
  apply renderer_annotating. intros l Hl.
  apply hoare_for_acc_inv. intros texts block.
  apply hoare_for_acc_inv. intros texts' para.
  apply hoare_seq_inv; [by apply add_bounding_box_annotating | done |].
  intros _. by apply hoare_ret.
Qed.

Lemma get_google_blocks_renders (page : Page) (img : loc) :
  renders w s0 (get_google_blocks page img).
Proof.
  apply renderer_annotating. intros l Hl.
  apply hoare_for_acc_inv. intros texts block.
  apply hoare_seq_inv; [by apply add_bounding_box_annotating | done |].
  intros _. by apply hoare_ret.
Qed.

Lemma iter_axs_inv (I : State -> Prop) (axs : subplots_axs) :
  hoare w I (iter_axs axs) (fun _ => I).
Proof. destruct axs; [by apply hoare_raise | by apply hoare_ret]. Qed.


Lemma display_google_results_displaying
    (pages : list (string * Page)) (img : loc)
    (func : Page -> loc -> nb (list string * loc)) :
  (forall page, renders w s0 (func page img)) ->
  hoare w (displaying s0) (display_google_results pages img func)
    (fun _ => displaying s0).
Proof.
  intros Hfunc. unfold display_google_results.
  apply hoare_seq_inv; [by apply call_displaying | done |]. intros fig_axs.
  apply hoare_seq_inv; [apply iter_axs_inv | done |]. intros axs.
  apply hoare_seq_inv; [| done | intros _; by apply call_displaying].
  apply hoare_for_acc_inv. intros _ [[name page] ax]. simpl.
  eapply hoare_bind
    with (R := fun r s => heap s0 !! r.2 = None /\ annotating s0 r.2 s);
    [apply Hfunc|].
  intros [texts l]. apply hoare_pre_pure. simpl. intros Hl.
  pose proof (annotating_displaying s0 l) as Hweak.
  apply hoare_seq_inv; [by apply call_annotating | eauto |]. intros _.
  apply hoare_seq_inv; [by apply call_annotating | eauto |]. intros _.
  apply hoare_seq_inv; [by apply call_annotating | eauto |]. intros _.
  apply hoare_seq_inv; [apply load_inv | eauto |]. intros data.
  eapply hoare_bind with (R := fun _ => displaying s0);
    [| intros _; by apply call_displaying].
  eapply hoare_conseq; [by apply imshow_annotated | done |].
  by intros [?|?] ?.
Qed.

End Renderers.

Lemma displaying_init (s : State) : displaying s s.
Proof.
  split; [apply unchanged_refl|]. exists []. split; [by rewrite app_nil_r|].
  split; [constructor | by intros l ?%elem_of_nil].
Qed.


Lemma annotates_own_copies_intro (w : World) (s : State) (m : nb unit) :
  hoare w (displaying s) m (fun _ => displaying s) ->
  annotates_own_copies w s m.
Proof.
  intros H. specialize (H s (displaying_init s)).
  destruct H as [Hu (tr & Hlog & Hnd & Hfresh)].
  split; [done|]. exists tr. split; [done|]. split; [done|].
  intros l Hl. by apply Hfresh.
Qed.


(** The same for the display loop over the Vision pages, with any of the
    three renderers. *)
Corollary display_google_results_own_copies (w : World) (s : State)
    (pages : list (string * Page)) (img : loc) :
  annotates_own_copies w s (display_google_results pages img get_google_blocks) /\
  annotates_own_copies w s (display_google_results pages img get_google_paragraphs) /\
  annotates_own_copies w s (display_google_results pages img get_google_words).
Proof.
  split; [|split]; apply annotates_own_copies_intro;
    apply display_google_results_displaying; intros page.
  - apply get_google_blocks_renders.
  - apply get_google_paragraphs_renders.
  - apply get_google_words_renders.
Qed.

(** ** The texts collected by the renderers *)

Lemma foldl_snoc_map {A B} (f : A -> B) (xs : list A) (acc : list B) :
  foldl (fun acc x => acc ++ [f x]) acc xs = acc ++ map f xs.
Proof.
  revert acc. induction xs as [|x xs IH]; intros acc; simpl.
  - by rewrite app_nil_r.
  - by rewrite IH, <- app_assoc.
Qed.

Lemma foldl_app_bind {A B} (h : A -> list B) (xs : list A) (acc : list B) :
  foldl (fun acc x => acc ++ h x) acc xs = acc ++ (xs ≫= h).
Proof.
  revert acc. induction xs as [|x xs IH]; intros acc; simpl.
  - by rewrite app_nil_r.
  - change ((x :: xs) ≫= h) with (h x ++ (xs ≫= h)).
    by rewrite IH, <- app_assoc.
Qed.

Section Texts.
Context (w : World).

(** If every iteration that returns leaves [g acc x] in the local
    variables, a loop that returns leaves the fold of [g]. *)
Lemma for_acc_value {X A} (g : A -> X -> A) (body : A -> X -> nb A)
    (xs : list X) (acc : A) :
  (forall acc x,
     hoare w (fun _ => True) (body acc x)
       (fun o _ => forall a, o = Returned a -> a = g acc x)) ->
  hoare w (fun _ => True) (for_acc xs acc body)
    (fun o _ => forall a, o = Returned a -> a = foldl g acc xs).
Proof.
  intros Hbody.
  eapply hoare_conseq;
    [apply (hoare_for_acc w
              (fun a rest _ => foldl g a rest = foldl g acc xs)
              (fun _ _ => True)) | done |].
  - intros acc' x rest s Hs. specialize (Hbody acc' x s I).
    destruct (body acc' x w s) as [[a|e] s']; simpl in *; [|done].
    by rewrite (Hbody a eq_refl).
  - intros [a|e] s H a' [=]. by subst.
Qed.

(** If every iteration keeps [J] and returns [g acc x], so does the loop
    with the fold of [g]: it does not raise. *)
Lemma for_acc_returns {X A} (J : State -> Prop) (g : A -> X -> A)
    (body : A -> X -> nb A) (xs : list X) (acc : A) :
  (forall acc x,
     hoare w J (body acc x) (fun o s => o = Returned (g acc x) /\ J s)) ->
  hoare w J (for_acc xs acc body)
    (fun o s => o = Returned (foldl g acc xs) /\ J s).
Proof.
  intros Hbody.
  eapply hoare_conseq;
    [apply (hoare_for_acc w
              (fun a rest s => foldl g a rest = foldl g acc xs /\ J s)
              (fun _ _ => False)) | done |].
  - intros acc' x rest s [Hfold Hs]. specialize (Hbody acc' x s Hs).
    destruct (body acc' x w s) as [[a|e] s']; simpl in *.
    + destruct Hbody as [[= ->] HJ]. done.
    + by destruct Hbody.
  - intros [a|e] s; [|done]. intros [<- HJ]. done.
Qed.

Lemma add_bounding_box_value {A} (l : loc) (bb : list Vertex) (a : A) :
  hoare w (fun _ => True) (add_bounding_box l bb ;; ret a)
    (fun o _ => forall a', o = Returned a' -> a' = a).
Proof.
  intros s _. unfold bind, ret.
  destruct (add_bounding_box l bb w s) as [[[]|e] s']; simpl;
    by intros a' [=].
Qed.

Lemma add_bounding_box_returns {A} (l : loc) (bb : list Vertex) (a : A) :
  polylines_succeeds w ->
  hoare w (fun s => is_Some (heap s !! l)) (add_bounding_box l bb ;; ret a)
    (fun o s => o = Returned a /\ is_Some (heap s !! l)).
Proof.
  intros Hw s [data Hdata].
  unfold bind, ret, add_bounding_box, bind, load, call, store. rewrite Hdata.
  destruct (Hw (log s) data
              [map (fun point => (vx point, vy point)) bb] true (255, 0, 0) 2)
    as [drawn ->].
  simpl. rewrite Hdata. simpl. rewrite lookup_insert_eq. eauto.
Qed.

(** The value a renderer returns, when it returns. *)
Lemma renderer_value (img : loc) (loops : loc -> nb (list string))
    (expected : list string) (s : State) :
  (forall l, hoare w (fun _ => True) (loops l)
     (fun o _ => forall texts, o = Returned texts -> texts = expected)) ->
  forall texts _img,
    returns w s
      (_img <- ndarray_copy img ;; texts <- loops _img ;; ret (texts, _img))
      (texts, _img) ->
    texts = expected.
Proof.
  intros Hloops texts l. unfold returns, bind.
  destruct (ndarray_copy img w s) as [[l'|e] s1]; [|done].
  specialize (Hloops l' s1 I).
  destruct (loops l' w s1) as [[texts'|e] s2]; simpl in *; [|done].
  intros [= <- <-]. by apply Hloops.
Qed.

Lemma renderer_returns (img : loc) (loops : loc -> nb (list string))
    (expected : list string) (s : State) :
  is_Some (heap s !! img) ->
  (forall l, hoare w (fun s => is_Some (heap s !! l)) (loops l)
     (fun o s => o = Returned expected /\ is_Some (heap s !! l))) ->
  exists _img,
    returns w s
      (_img <- ndarray_copy img ;; texts <- loops _img ;; ret (texts, _img))
      (expected, _img).
Proof.
  intros [a Ha] Hloops. unfold returns, bind, ndarray_copy, bind, load.
  rewrite Ha. simpl.
  set (l := fresh (dom (heap s))).
  set (s1 := {| heap := <[l := a]> (heap s); log := log s |}).
  assert (is_Some (heap s1 !! l)) as Hl
    by (simpl; rewrite lookup_insert_eq; eauto).
  specialize (Hloops l s1 Hl).
  destruct (loops l w s1) as [o s2]. simpl in *. destruct Hloops as [-> _].
  by exists l.
Qed.

End Texts.

(** C10: when they return, [get_google_blocks], [get_google_paragraphs] and
    [get_google_words] return the texts of the page's blocks, paragraphs
    and words, one entry per node in traversal order, so as many entries
    as there are nodes; and they do return when the image is bound and
    drawing does not fail. *)
Theorem google_texts_one_per_node (w : World) (s : State) (page : Page)
    (img : loc) :
  (forall texts _img,
     returns w s (get_google_blocks page img) (texts, _img) ->
     texts = map get_block_text (blocks page) /\
     length texts = length (blocks page)) /\
  (forall texts _img,
     returns w s (get_google_paragraphs page img) (texts, _img) ->
     texts = map get_paragraph_text (page_paragraphs page) /\
     length texts = length (page_paragraphs page)) /\
  (forall texts _img,
     returns w s (get_google_words page img) (texts, _img) ->
     texts = map get_word_text (page_words page) /\
     length texts = length (page_words page)) /\
  (is_Some (heap s !! img) -> polylines_succeeds w ->
     exists b p q,
       returns w s (get_google_blocks page img)
         (map get_block_text (blocks page), b) /\
       returns w s (get_google_paragraphs page img)
         (map get_paragraph_text (page_paragraphs page), p) /\
       returns w s (get_google_words page img)
         (map get_word_text (page_words page), q)).
Proof.
  assert (forall A B (f : A -> B) (xs : list A) (texts : list B),
            texts = map f xs -> texts = map f xs /\ length texts = length xs)
    as Hlen by (intros A B f xs texts ->; by rewrite length_map).
  split; [|split; [|split]].
  - intros texts l H. apply Hlen. revert texts l H. apply renderer_value.
    intros l. eapply hoare_conseq;
      [apply (for_acc_value w (fun acc block => acc ++ [get_block_text block]))
      | done | ].
    + intros acc block. apply add_bounding_box_value.
    + intros o _ H texts ->. rewrite (H texts eq_refl).
      by rewrite foldl_snoc_map.
  - intros texts l H. apply Hlen. revert texts l H. apply renderer_value.
    intros l. eapply hoare_conseq;
      [apply (for_acc_value w (fun acc block =>
                acc ++ map get_paragraph_text (paragraphs block)))
      | done | ].
    + intros acc block. eapply hoare_conseq;
        [apply (for_acc_value w (fun acc para => acc ++ [get_paragraph_text para]))
        | done | ].
      * intros acc' para. apply add_bounding_box_value.
      * intros o _ H texts ->. rewrite (H texts eq_refl).
        by rewrite foldl_snoc_map.
    + intros o _ H texts ->. rewrite (H texts eq_refl).
      rewrite foldl_app_bind. unfold page_paragraphs.
      by rewrite map_list_bind.
  - intros texts l H. apply Hlen. revert texts l H. apply renderer_value.
    intros l. eapply hoare_conseq;
      [apply (for_acc_value w (fun acc block =>
                acc ++ (paragraphs block ≫= fun para =>
                          map get_word_text (words para))))
      | done | ].
    + intros acc block. eapply hoare_conseq;
        [apply (for_acc_value w (fun acc para =>
                  acc ++ map get_word_text (words para)))
        | done | ].
      * intros acc' para. eapply hoare_conseq;
          [apply (for_acc_value w (fun acc word => acc ++ [get_word_text word]))
          | done | ].
        -- intros acc'' word. apply add_bounding_box_value.
        -- intros o _ H texts ->. rewrite (H texts eq_refl).
           by rewrite foldl_snoc_map.
      * intros o _ H texts ->. rewrite (H texts eq_refl).
        by rewrite foldl_app_bind.
    + intros o _ H texts ->. rewrite (H texts eq_refl).
      rewrite foldl_app_bind. unfold page_words, page_paragraphs.
      by rewrite map_list_bind, list_bind_bind.
  - intros Himg Hw.
    assert (exists b, returns w s (get_google_blocks page img)
                        (map get_block_text (blocks page), b)) as [b Hb].
    { apply renderer_returns; [done|]. intros l.
      eapply hoare_conseq;
        [apply (for_acc_returns w (fun s => is_Some (heap s !! l))
                  (fun acc block => acc ++ [get_block_text block]))
        | done | ].
      - intros acc block. by apply add_bounding_box_returns.
      - intros o s' [-> HJ]. by rewrite foldl_snoc_map. }
    assert (exists p, returns w s (get_google_paragraphs page img)
                        (map get_paragraph_text (page_paragraphs page), p))
      as [p Hp].
    { apply renderer_returns; [done|]. intros l.
      eapply hoare_conseq;
        [apply (for_acc_returns w (fun s => is_Some (heap s !! l))
                  (fun acc block =>
                     acc ++ map get_paragraph_text (paragraphs block)))
        | done | ].
      - intros acc block. eapply hoare_conseq;
          [apply (for_acc_returns w (fun s => is_Some (heap s !! l))
                    (fun acc para => acc ++ [get_paragraph_text para]))
          | done | ].
        + intros acc' para. by apply add_bounding_box_returns.
        + intros o s' [-> HJ]. by rewrite foldl_snoc_map.
      - intros o s' [-> HJ]. rewrite foldl_app_bind. unfold page_paragraphs.
        by rewrite map_list_bind. }
    assert (exists q, returns w s (get_google_words page img)
                        (map get_word_text (page_words page), q)) as [q Hq].
    { apply renderer_returns; [done|]. intros l.
      eapply hoare_conseq;
        [apply (for_acc_returns w (fun s => is_Some (heap s !! l))
                  (fun acc block =>
                     acc ++ (paragraphs block ≫= fun para =>
                               map get_word_text (words para))))
        | done | ].
      - intros acc block. eapply hoare_conseq;
          [apply (for_acc_returns w (fun s => is_Some (heap s !! l))
                    (fun acc para => acc ++ map get_word_text (words para)))
          | done | ].
        + intros acc' para. eapply hoare_conseq;
            [apply (for_acc_returns w (fun s => is_Some (heap s !! l))
                      (fun acc word => acc ++ [get_word_text word]))
            | done | ].
          * intros acc'' word. by apply add_bounding_box_returns.
          * intros o s' [-> HJ]. by rewrite foldl_snoc_map.
        + intros o s' [-> HJ]. by rewrite foldl_app_bind.
      - intros o s' [-> HJ]. rewrite foldl_app_bind.
        unfold page_words, page_paragraphs.
        by rewrite map_list_bind, list_bind_bind. }
    by exists b, p, q.
Qed.

Lemma google_texts_one_per_node_witness :
  exists b p q,
    returns sample_world loaded_state (get_google_blocks page_Hi_yo img_ref)
      (["Hi yo "; "Hi yo "], b) /\
    returns sample_world loaded_state (get_google_paragraphs page_Hi_yo img_ref)
      (["Hi yo "; "Hi yo "], p) /\
    returns sample_world loaded_state (get_google_words page_Hi_yo img_ref)
      (["Hi "; "yo "; "Hi "; "yo "], q).
Proof.
  apply (google_texts_one_per_node sample_world loaded_state page_Hi_yo img_ref).
  - exists tiny_image. reflexivity.
  - intros history data pts isClosed color thickness. exists data. reflexivity.
Defined.

(** ** Loading the image *)

(** C3: when the locator starts with gs://, and the storage client hands
    over the object's bytes and the decoder makes an image of them,
    [imread_wrapper] returns that image, as a new array, having asked the
    storage client and then the decoder; otherwise, when [cv2.imread]
    decodes the file at that path, it returns that image having asked
    nothing else.  Both decoders are asked for a colour image. *)
Theorem imread_wrapper_contract (w : World) (s : State) (uri : string)
    (image : ndarray) :
  (forall fs f buf,
     startswith uri "gs://" = true ->
     answered w (log s) (cloud_load uri fs f buf (Some image)) ->
     exists img,
       heap s !! img = None /\
       imread_wrapper uri w s =
         (Returned (Some img),
          {| heap := <[img := image]> (heap s);
             log := log s ++ cloud_load uri fs f buf (Some image) |})) /\
  (startswith uri "gs://" = false ->
   answered w (log s) (local_load uri (Some image)) ->
   exists img,
     heap s !! img = None /\
     imread_wrapper uri w s =
       (Returned (Some img),
        {| heap := <[img := image]> (heap s);
           log := log s ++ local_load uri (Some image) |})).
Proof.
  split.
  - intros fs f buf Hgs (H1 & H2 & H3 & H4 & H5 & _). simpl in *.
    exists (fresh (dom (heap s))).
    split; [apply not_elem_of_dom, is_fresh|].
    unfold imread_wrapper. rewrite Hgs.
    unfold with_, bind, call, as_object, bind, new_array, ret. simpl.
    rewrite H1. simpl. rewrite H2. simpl. rewrite H3. simpl.
    rewrite H4. simpl.
    rewrite <- !app_assoc in H5. simpl in H5. rewrite <- !app_assoc. simpl.
    rewrite H5. reflexivity.
  - intros Hgs (H1 & _). simpl in *.
    exists (fresh (dom (heap s))).
    split; [apply not_elem_of_dom, is_fresh|].
    unfold imread_wrapper. rewrite Hgs.
    unfold bind, call, as_object, bind, new_array, ret. simpl.
    rewrite H1. reflexivity.
Qed.

Lemma imread_wrapper_contract_witness :
  (exists img,
     heap empty_state !! img = None /\
     imread_wrapper "gs://bucket/receipt.jpg" sample_world empty_state =
       (Returned (Some img),
        {| heap := <[img := tiny_image]> (heap empty_state);
           log := log empty_state ++
                  cloud_load "gs://bucket/receipt.jpg" {| fs_id := 0 |}
                    {| file_path := "gs://bucket/receipt.jpg";
                       file_mode := "rb" |}
                    tiny_bytes (Some tiny_image) |})) /\
  (exists img,
     heap empty_state !! img = None /\
     imread_wrapper "img/receipt.jpg" sample_world empty_state =
       (Returned (Some img),
        {| heap := <[img := tiny_image]> (heap empty_state);
           log := log empty_state ++
                  local_load "img/receipt.jpg" (Some tiny_image) |})).
Proof.
  split.
  - apply (proj1 (imread_wrapper_contract sample_world empty_state
                    "gs://bucket/receipt.jpg" tiny_image)).
    + reflexivity.
    + repeat split; reflexivity.
  - apply (proj2 (imread_wrapper_contract sample_world empty_state
                    "img/receipt.jpg" tiny_image)).
    + reflexivity.
    + repeat split; reflexivity.
Defined.

(** C4, as stated, fails: a local path that is not there, a local file
    that is not an image and a stored object that is not an image all make
    [imread_wrapper] return [None]; no error is signalled. *)
Lemma imread_wrapper_returns_None_without_error :
  sample_disk "missing.png" = None /\
  (imread_wrapper "missing.png" sample_world empty_state).1 = Returned None /\
  ~ signals_error sample_world empty_state "missing.png" /\
  (sample_disk "notes.txt" ≫= sample_decode) = None /\
  ~ signals_error sample_world empty_state "notes.txt" /\
  (sample_bucket "gs://bucket/notes.txt" ≫= sample_decode) = None /\
  ~ signals_error sample_world empty_state "gs://bucket/notes.txt".
Proof.
  repeat split; try reflexivity; intros [e H]; discriminate H.
Qed.


(** ** Failures of library requests *)

Lemma answered_app (w : World) (h tr1 tr2 : list event) :
  answered w h tr1 -> answered w (h ++ tr1) tr2 -> answered w h (tr1 ++ tr2).
Proof.
  revert h. induction tr1 as [|ev tr1 IH]; intros h H1 H2; simpl in *.
  - by rewrite app_nil_r in H2.
  - destruct H1 as [Hev H1]. split; [done|]. apply IH; [done|].
    by rewrite <- app_assoc.
Qed.

Lemma stops_at_failure_app (tr1 tr2 : list event) :
  failures tr1 = [] ->
  stops_at_failure (tr1 ++ tr2) = stops_at_failure tr2.
Proof.
  unfold failures. induction tr1 as [|ev tr1 IH]; [done|]. simpl.
  destruct (failure ev); [done | apply IH].
Qed.

Lemma stops_at_failure_close (tr : list event) (ev : event) :
  is_close ev = true ->
  stops_at_failure tr = true ->
  stops_at_failure (tr ++ [ev]) = true.
Proof.
  intros Hev. induction tr as [|ev' tr IH]; simpl.
  - by destruct (failure ev).
  - destruct (failure ev'); [|done].
    rewrite forallb_app. simpl. rewrite Hev. intros ->. done.
Qed.

Lemma failures_app (tr1 tr2 : list event) :
  failures (tr1 ++ tr2) = failures tr1 ++ failures tr2.
Proof. apply omap_app. Qed.

Section Propagation.
Context (own : exn -> Prop) (w : World).

Lemma propagates_ret {A} (a : A) : propagates own w (ret a).
Proof. intros s. exists []. simpl. by rewrite app_nil_r. Qed.

Lemma propagates_raise {A} (e : exn) : own e -> propagates own w (@raise A e).
Proof. intros He s. exists []. simpl. rewrite app_nil_r. eauto 10. Qed.

Lemma propagates_call {X} (c : libcall X) : propagates own w (call c).
Proof.
  intros s. exists [Event c (lib w (log s) X c)]. simpl.
  split; [done|]. split; [done|].
  destruct (lib w (log s) X c); simpl; eauto.
Qed.

Lemma propagates_bind {A B} (m : nb A) (k : A -> nb B) :
  propagates own w m ->
  (forall a, propagates own w (k a)) ->
  propagates own w (bind m k).
Proof.
  intros Hm Hk s. destruct (Hm s) as (tr1 & Hlog1 & Hans1 & Hstop1 & Hout1).
  unfold bind. destruct (m w s) as [[a|e] s1]; simpl in *.
  - destruct (Hk a s1) as (tr2 & Hlog2 & Hans2 & Hstop2 & Hout2).
    exists (tr1 ++ tr2). rewrite Hlog1 in *.
    split; [by rewrite Hlog2, app_assoc|].
    split; [by apply answered_app|].
    split; [by rewrite stops_at_failure_app|].
    rewrite failures_app, Hout1. done.
  - by exists tr1.
Qed.

Lemma propagates_for_acc {X A} (body : A -> X -> nb A) (xs : list X) (acc : A) :
  (forall acc x, propagates own w (body acc x)) ->
  propagates own w (for_acc xs acc body).
Proof.
  intros Hbody. revert acc. induction xs as [|x xs IH]; intros acc; simpl.
  - apply propagates_ret.
  - apply propagates_bind; [apply Hbody | apply IH].
Qed.

Lemma propagates_with_close {A} (enter : nb GCSFile) (body : GCSFile -> nb A) :
  propagates own w enter ->
  (forall f, propagates own w (body f)) ->
  propagates own w (with_ enter (fun f => call (file_close f)) body).
Proof.
  intros Henter Hbody s.
  destruct (Henter s) as (tr1 & Hlog1 & Hans1 & Hstop1 & Hout1).
  unfold with_. destruct (enter w s) as [[f|e] s1]; simpl in *;
    [|by exists tr1].
  destruct (Hbody f s1) as (tr2 & Hlog2 & Hans2 & Hstop2 & Hout2).
  destruct (body f w s1) as [o s2]; simpl in *.
  unfold call. rewrite Hlog1 in *. rewrite Hlog2 in *.
  set (oc := lib w ((log s ++ tr1) ++ tr2) unit (file_close f)).
  exists (tr1 ++ tr2 ++ [Event (file_close f) oc]).
  assert (answered w (log s) (tr1 ++ tr2 ++ [Event (file_close f) oc])).
  { apply answered_app; [done|]. apply answered_app; [done|]. by simpl. }
  assert (stops_at_failure (tr1 ++ tr2 ++ [Event (file_close f) oc]) = true).
  { rewrite stops_at_failure_app by done.
    by apply stops_at_failure_close. }
  rewrite !failures_app, Hout1. simpl.
  destruct oc as [[]|e'] eqn:Hoc; simpl.
  - split; [by rewrite <- !app_assoc|]. split; [done|]. split; [done|].
    rewrite app_nil_r. done.
  - split; [by rewrite <- !app_assoc|]. split; [done|]. split; [done|].
    left. apply last_snoc.
Qed.

Lemma propagates_load (l : loc) :
  own UnboundReference -> propagates own w (load l).
Proof.
  intros Hown s. exists []. unfold load. rewrite app_nil_r.
  destruct (heap s !! l); simpl; eauto 10.
Qed.

Lemma propagates_store (l : loc) (a : ndarray) :
  own UnboundReference -> propagates own w (store l a).
Proof.
  intros Hown s. exists []. unfold store.
  destruct (heap s !! l); simpl; rewrite app_nil_r; eauto 10.
Qed.

Lemma propagates_new_array (a : ndarray) : propagates own w (new_array a).
Proof. intros s. exists []. simpl. by rewrite app_nil_r. Qed.

Lemma propagates_as_object (r : option ndarray) :
  propagates own w (as_object r).
Proof.
  destruct r; simpl; [|apply propagates_ret].
  apply propagates_bind; [apply propagates_new_array|].
  intros l. apply propagates_ret.
Qed.

Lemma propagates_getitem {A} (xs : list A) (i : nat) :
  own IndexError -> propagates own w (getitem xs i).
Proof.
  intros Hown. unfold getitem.
  destruct (xs !! i); [apply propagates_ret | by apply propagates_raise].
Qed.

Lemma propagates_iter_axs (axs : subplots_axs) :
  own TypeError -> propagates own w (iter_axs axs).
Proof.
  intros Hown. destruct axs; [by apply propagates_raise | apply propagates_ret].
Qed.

Lemma propagates_box_corners (bb : option (Z * Z * Z * Z)) :
  own TypeError -> propagates own w (box_corners bb).
Proof.
  intros Hown. destruct bb as [[[[x1 y1] x2] y2]|];
    [apply propagates_ret | by apply propagates_raise].
Qed.

End Propagation.

Lemma python_error_Index : python_error IndexError.
Proof. by left. Qed.
Lemma python_error_Type : python_error TypeError.
Proof. right. by left. Qed.
Lemma python_error_Unbound : python_error UnboundReference.
Proof. right. by right. Qed.

Create HintDb propagation.
#[local] Hint Resolve python_error_Index python_error_Type python_error_Unbound
  : propagation.
#[local] Hint Resolve propagates_ret propagates_call propagates_new_array
  propagates_as_object : propagation.
#[local] Hint Resolve propagates_raise propagates_load propagates_store
  propagates_getitem propagates_iter_axs propagates_box_corners : propagation.

(** Walks through a notebook function: sequencing, loops, [with] blocks,
    and at the leaves requests and the notebook's own operations. *)
Ltac propagation :=
  repeat (cbv zeta;
    lazymatch goal with
    | |- propagates _ _ (bind _ _) => apply propagates_bind; [|intros ?]
    | |- propagates _ _ (for_acc _ _ _) => apply propagates_for_acc; intros ? ?
    | |- propagates _ _ (with_ _ _ _) => apply propagates_with_close; [|intros ?]
    | |- _ => solve [auto with propagation]
    end).

Lemma imread_wrapper_propagates (w : World) (uri : string) :
  propagates nothing w (imread_wrapper uri).
Proof.
  unfold imread_wrapper. destruct (startswith uri "gs://"); propagation.
Qed.

Lemma show_image_propagates (w : World) (img : loc) (title : string) :
  propagates python_error w (show_image img title).
Proof. unfold show_image. propagation. Qed.

Lemma tesseract_ocr_propagates (w : World) (tesseract : PyTessBaseAPI) (img : loc) :
  propagates python_error w (tesseract_ocr tesseract img).
Proof. unfold tesseract_ocr. propagation. Qed.

Lemma rectangle_propagates (w : World) (img : loc) pt1 pt2 color thickness :
  propagates python_error w (rectangle img pt1 pt2 color thickness).
Proof. unfold rectangle. propagation. Qed.

Lemma add_bounding_box_propagates (w : World) (img : loc) (bb : list Vertex) :
  propagates python_error w (add_bounding_box img bb).
Proof. unfold add_bounding_box. propagation. Qed.

Lemma ndarray_copy_propagates (w : World) (img : loc) :
  propagates python_error w (ndarray_copy img).
Proof. unfold ndarray_copy. propagation. Qed.

#[local] Hint Resolve tesseract_ocr_propagates rectangle_propagates
  add_bounding_box_propagates ndarray_copy_propagates : propagation.

Lemma display_tesseract_results_propagates (w : World) (img : loc) (level : RIL) :
  propagates python_error w (display_tesseract_results img level).
Proof. unfold display_tesseract_results, for_each. propagation. Qed.

Lemma google_document_text_detection_propagates (w : World) (img : loc) :
  propagates python_error w (google_document_text_detection img).
Proof. unfold google_document_text_detection. propagation. Qed.

Lemma google_text_detection_propagates (w : World) (img : loc) :
  propagates python_error w (google_text_detection img).
Proof. unfold google_text_detection. propagation. Qed.

Lemma get_google_words_propagates (w : World) (page : Page) (img : loc) :
  propagates python_error w (get_google_words page img).
Proof. unfold get_google_words. propagation. Qed.

Lemma get_google_paragraphs_propagates (w : World) (page : Page) (img : loc) :
  propagates python_error w (get_google_paragraphs page img).
Proof. unfold get_google_paragraphs. propagation. Qed.

Lemma get_google_blocks_propagates (w : World) (page : Page) (img : loc) :
  propagates python_error w (get_google_blocks page img).
Proof. unfold get_google_blocks. propagation. Qed.

Lemma display_google_results_propagates (w : World)
    (pages : list (string * Page)) (img : loc)
    (func : Page -> loc -> nb (list string * loc)) :
  (forall page, propagates python_error w (func page img)) ->
  propagates python_error w (display_google_results pages img func).
Proof.
  intros Hfunc. unfold display_google_results, for_each. propagation.
Qed.

(** C8: no function of the notebook handles an exception.  For each of
    them, in every world: once a library request fails nothing more is
    asked (but for closing the file of a [with] block); the function then
    raises, and what it raises is the library's exception; it returns only
    when every request succeeded. *)
Theorem no_function_handles_failures (w : World) :
  (forall img title, propagates python_error w (show_image img title)) /\
  (forall uri, propagates nothing w (imread_wrapper uri)) /\
  (forall tesseract img, propagates python_error w (tesseract_ocr tesseract img)) /\
  (forall img level,
     propagates python_error w (display_tesseract_results img level)) /\
  (forall img, propagates python_error w (google_document_text_detection img)) /\
  (forall img, propagates python_error w (google_text_detection img)) /\
  (forall img bb, propagates python_error w (add_bounding_box img bb)) /\
  (forall page img, propagates python_error w (get_google_words page img)) /\
  (forall page img, propagates python_error w (get_google_paragraphs page img)) /\
  (forall page img, propagates python_error w (get_google_blocks page img)) /\
  (forall pages img,
     propagates python_error w (display_google_results pages img get_google_blocks) /\
     propagates python_error w
       (display_google_results pages img get_google_paragraphs) /\
     propagates python_error w (display_google_results pages img get_google_words)).
Proof.
  repeat lazymatch goal with |- _ /\ _ => split end; intros.
  - apply show_image_propagates.
  - apply imread_wrapper_propagates.
  - apply tesseract_ocr_propagates.
  - apply display_tesseract_results_propagates.
  - apply google_document_text_detection_propagates.
  - apply google_text_detection_propagates.
  - apply add_bounding_box_propagates.
  - apply get_google_words_propagates.
  - apply get_google_paragraphs_propagates.
  - apply get_google_blocks_propagates.
  - split; [|split]; apply display_google_results_propagates; intros page.
    + apply get_google_blocks_propagates.
    + apply get_google_paragraphs_propagates.
    + apply get_google_words_propagates.
Qed.

(** What [propagates] gives at a failed request: the function raises, and
    raises the exception of the last request that failed. *)
Lemma propagates_failed_request {A} (own : exn -> Prop) (w : World) (m : nb A)
    (s : State) (tr : list event) (ev : event) (e : exn) :
  propagates own w m ->
  log (m w s).2 = log s ++ tr ->
  ev ∈ tr -> failure ev = Some e ->
  exists e', (m w s).1 = Raised e' /\ last (failures tr) = Some e'.
Proof.
  intros Hm Hlog Hev He.
  destruct (Hm s) as (tr' & Hlog' & _ & _ & Hout).
  rewrite Hlog in Hlog'. apply app_inv_head in Hlog'. subst tr'.
  assert (e ∈ failures tr) as Hin
    by (apply list_elem_of_omap; eauto).
  destruct ((m w s).1) as [a|e'].
  - rewrite Hout in Hin. by apply elem_of_nil in Hin.
  - exists e'. split; [done|]. destruct Hout as [?|[Hnil _]]; [done|].
    rewrite Hnil in Hin. by apply elem_of_nil in Hin.
Qed.

(** A function that raises without an error of its own raises what a
    request raised. *)
Lemma propagates_raised {A} (w : World) (m : nb A) (s : State) (e : exn) :
  propagates nothing w m ->
  (m w s).1 = Raised e ->
  exists tr ev,
    log (m w s).2 = log s ++ tr /\ answered w (log s) tr /\
    ev ∈ tr /\ failure ev = Some e.
Proof.
  intros Hm He. destruct (Hm s) as (tr & Hlog & Hans & _ & Hout).
  rewrite He in Hout. destruct Hout as [Hlast|[_ []]].
  apply last_Some in Hlast as [pre Hpre].
  assert (e ∈ failures tr) as Hin
    by (rewrite Hpre; apply elem_of_app; right; apply list_elem_of_here).
  apply list_elem_of_omap in Hin as (ev & Hev & Hfail).
  by exists tr, ev.
Qed.

Example unreachable_object_raises :
  imread_wrapper "gs://bucket/none.png" sample_world empty_state =
    (Raised FileNotFoundError,
     {| heap := ∅;
        log := [ Event GCSFileSystem (Returned {| fs_id := 0 |});
                 Event (fs_open {| fs_id := 0 |} "gs://bucket/none.png" "rb")
                   (Raised FileNotFoundError) ] |}).
Proof. reflexivity. Qed.

(** C4, amended: where the decoder reports bytes or a file it cannot make
    an image of by returning [None], [imread_wrapper] returns [None] and
    signals nothing; when it does signal an error, the error is the
    exception of a library request that failed. *)
Theorem imread_wrapper_unreadable (w : World) (s : State) (uri : string) :
  (forall fs f buf,
     startswith uri "gs://" = true ->
     answered w (log s) (cloud_load uri fs f buf None) ->
     imread_wrapper uri w s =
       (Returned None,
        {| heap := heap s; log := log s ++ cloud_load uri fs f buf None |})) /\
  (startswith uri "gs://" = false ->
   answered w (log s) (local_load uri None) ->
   imread_wrapper uri w s =
     (Returned None,
      {| heap := heap s; log := log s ++ local_load uri None |})) /\
  (forall e,
     (imread_wrapper uri w s).1 = Raised e ->
     exists tr ev,
       log (imread_wrapper uri w s).2 = log s ++ tr /\
       answered w (log s) tr /\ ev ∈ tr /\ failure ev = Some e).
Proof.
  split; [|split].
  - intros fs f buf Hgs (H1 & H2 & H3 & H4 & H5 & _). simpl in *.
    unfold imread_wrapper. rewrite Hgs.
    unfold with_, bind, call, as_object, ret. simpl.
    rewrite H1. simpl. rewrite H2. simpl. rewrite H3. simpl.
    rewrite H4. simpl.
    rewrite <- !app_assoc in H5. simpl in H5. rewrite <- !app_assoc. simpl.
    rewrite H5. reflexivity.
  - intros Hgs (H1 & _). simpl in *.
    unfold imread_wrapper. rewrite Hgs.
    unfold bind, call, as_object, ret. simpl.
    rewrite H1. reflexivity.
  - intros e. apply propagates_raised, imread_wrapper_propagates.
Qed.

Lemma imread_wrapper_unreadable_witness :
  imread_wrapper "gs://bucket/notes.txt" sample_world empty_state =
    (Returned None,
     {| heap := ∅;
        log := cloud_load "gs://bucket/notes.txt" {| fs_id := 0 |}
                 {| file_path := "gs://bucket/notes.txt"; file_mode := "rb" |}
                 garbage_bytes None |}) /\
  imread_wrapper "missing.png" sample_world empty_state =
    (Returned None, {| heap := ∅; log := local_load "missing.png" None |}) /\
  exists tr ev,
    log (imread_wrapper "gs://bucket/none.png" sample_world empty_state).2
      = log empty_state ++ tr /\
    answered sample_world (log empty_state) tr /\
    ev ∈ tr /\ failure ev = Some FileNotFoundError.
Proof.
  split; [|split].
  - apply (proj1 (imread_wrapper_unreadable sample_world empty_state
                    "gs://bucket/notes.txt")).
    + reflexivity.
    + repeat split; reflexivity.
  - apply (proj1 (proj2 (imread_wrapper_unreadable sample_world empty_state
                           "missing.png"))).
    + reflexivity.
    + repeat split; reflexivity.
  - apply (proj2 (proj2 (imread_wrapper_unreadable sample_world empty_state
                           "gs://bucket/none.png"))).
    reflexivity.
Defined.

(** ** Which decoder a locator goes to *)

Lemma startswith_gs (uri : string) :
  startswith uri "gs://" = true <-> denotes_cloud_storage uri.
Proof. apply startswith_spec. Qed.

(** C9: [imread_wrapper] asks the storage client exactly when the locator
    starts with the lowercase prefix gs://; any other locator goes, as it
    is, to [cv2.imread] as a path, and nothing else is asked. *)
Theorem imread_wrapper_dispatch (w : World) (s : State) (uri : string) :
  exists tr,
    log (imread_wrapper uri w s).2 = log s ++ tr /\
    (uses_storage_client tr = true <-> denotes_cloud_storage uri) /\
    (denotes_cloud_storage uri -> local_reads tr = []) /\
    (~ denotes_cloud_storage uri ->
     local_reads tr = [(uri, IMREAD_COLOR)] /\ length tr = 1%nat).
Proof.
  pose proof (startswith_gs uri) as Hgs.
  unfold imread_wrapper. destruct (startswith uri "gs://").
  - assert (denotes_cloud_storage uri) as Hcloud by by apply Hgs.
    unfold with_, bind, call, as_object, bind, new_array, ret. simpl.
    repeat match goal with
           | |- context [match lib w ?h ?X ?c with _ => _ end] =>
               destruct (lib w h X c) as [?|?]; simpl
           | |- context [match ?r with Some _ => _ | None => _ end] =>
               destruct r; simpl
           | |- context [let (_, _) := ?r in _] => destruct r; simpl
           end;
      rewrite <- ?app_assoc; simpl;
      (eexists; split; [reflexivity|]; split; [done|]; split; [done|];
       intros Hn; by destruct Hn).
  - assert (~ denotes_cloud_storage uri) as Hlocal
      by (intros H; apply Hgs in H; discriminate H).
    unfold bind, call, as_object, bind, new_array, ret. simpl.
    destruct (lib w (log s) _ (cv2_imread uri IMREAD_COLOR)) as [[image|]|e];
      simpl;
      (eexists; split; [reflexivity|]; split; [|done]; split; [done|];
       intros H; by destruct Hlocal).
Qed.

Example uppercase_scheme_is_a_local_path :
  ~ denotes_cloud_storage "GS://bucket/receipt.jpg" /\
  log (imread_wrapper "GS://bucket/receipt.jpg" sample_world empty_state).2 =
    local_load "GS://bucket/receipt.jpg" (Some tiny_image).
Proof.
  split; [|reflexivity]. intros H%startswith_gs. discriminate H.
Qed.

Example other_scheme_is_a_local_path :
  ~ denotes_cloud_storage "s3://bucket/receipt.jpg" /\
  ~ denotes_cloud_storage "gs:/bucket/receipt.jpg" /\
  log (imread_wrapper "s3://bucket/receipt.jpg" sample_world empty_state).2 =
    local_load "s3://bucket/receipt.jpg" None.
Proof.
  split; [|split; [|reflexivity]]; intros H%startswith_gs; discriminate H.
Qed.

(** ** The Vision requests *)

(** C7, amended: both functions encode the image (PIL, as PNG), submit
    the bytes to their own endpoint with the language hint "en", and
    return the first page of the answer when the answer has a page; when
    it has none, they raise [IndexError]. *)
Theorem google_detection_first_page (w : World) (s : State) (img : loc)
    (data : ndarray) (pil : PILImage) (buf : bytes)
    (resp : AnnotateImageResponse) :
  heap s !! img = Some data ->
  (answered w (log s)
     (detection_requests data pil buf document_text_detection resp) ->
   google_document_text_detection img w s =
     (match pages (full_text_annotation resp) with
      | page :: _ => Returned page
      | [] => Raised IndexError
      end,
      {| heap := heap s;
         log := log s ++
                detection_requests data pil buf document_text_detection resp |}))
  /\
  (answered w (log s) (detection_requests data pil buf text_detection resp) ->
   google_text_detection img w s =
     (match pages (full_text_annotation resp) with
      | page :: _ => Returned page
      | [] => Raised IndexError
      end,
      {| heap := heap s;
         log := log s ++ detection_requests data pil buf text_detection resp |})).
Proof.
  intros Himg. split; intros (H1 & H2 & H3 & _); simpl in *.
  - unfold google_document_text_detection, bind, load, call, getitem, ret, raise.
    rewrite Himg. simpl. rewrite H1. simpl. rewrite H2. simpl.
    rewrite <- !app_assoc in H3. simpl in H3. rewrite <- !app_assoc. simpl.
    rewrite H3. simpl.
    by destruct (pages (full_text_annotation resp)).
  - unfold google_text_detection, bind, load, call, getitem, ret, raise.
    rewrite Himg. simpl. rewrite H1. simpl. rewrite H2. simpl.
    rewrite <- !app_assoc in H3. simpl in H3. rewrite <- !app_assoc. simpl.
    rewrite H3. simpl.
    by destruct (pages (full_text_annotation resp)).
Qed.

Lemma google_detection_first_page_witness :
  (google_document_text_detection img_ref sample_world loaded_state).1
    = Returned page_Hi_yo /\
  (google_text_detection img_ref sample_world loaded_state).1 = Returned page_Hi_yo.
Proof.
  pose proof (google_detection_first_page sample_world loaded_state img_ref
                tiny_image {| pil_id := 0 |}
                [Byte.x89; Byte.x50; Byte.x4e; Byte.x47]
                sample_response eq_refl) as [Hdoc Htext].
  split.
  - rewrite Hdoc; [reflexivity | repeat split; reflexivity].
  - rewrite Htext; [reflexivity | repeat split; reflexivity].
Defined.

(** C7, as stated, fails: the Vision service may answer without any page
    (an image without text).  All three requests of each function then
    succeed, and the function raises [IndexError] instead of returning a
    page. *)
Lemma google_detection_raises_on_blank_response :
  pages (full_text_annotation blank_response) = [] /\
  answered blank_world (log loaded_state)
    (detection_requests tiny_image {| pil_id := 0 |}
       [Byte.x89; Byte.x50; Byte.x4e; Byte.x47]
       document_text_detection blank_response) /\
  (google_document_text_detection img_ref blank_world loaded_state).1
    = Raised IndexError /\
  (forall page,
     ~ returns blank_world loaded_state
         (google_document_text_detection img_ref) page) /\
  answered blank_world (log loaded_state)
    (detection_requests tiny_image {| pil_id := 0 |}
       [Byte.x89; Byte.x50; Byte.x4e; Byte.x47]
       text_detection blank_response) /\
  (google_text_detection img_ref blank_world loaded_state).1
    = Raised IndexError /\
  (forall page,
     ~ returns blank_world loaded_state (google_text_detection img_ref) page).
Proof.
  repeat split; try reflexivity; intros page H; discriminate H.
Qed.

(** A response without pages: subscripting raises. *)
Lemma google_detection_no_page (w : World) (s : State) (img : loc)
    (data : ndarray) (pil : PILImage) (buf : bytes)
    (resp : AnnotateImageResponse) :
  heap s !! img = Some data ->
  pages (full_text_annotation resp) = [] ->
  answered w (log s)
    (detection_requests data pil buf document_text_detection resp) ->
  (google_document_text_detection img w s).1 = Raised IndexError.
Proof.
  intros Himg Hpages (H1 & H2 & H3 & _). simpl in *.
  unfold google_document_text_detection, bind, load, call, getitem, ret.
  rewrite Himg. simpl. rewrite H1. simpl. rewrite H2. simpl.
  rewrite <- !app_assoc in H3. simpl in H3. rewrite <- !app_assoc. simpl.
  rewrite H3. simpl. rewrite Hpages. reflexivity.
Qed.

(** ** Preprocessing *)








Example preprocess_tiny_image :
  cvtColor sample_kernels tiny_image COLOR_BGR2GRAY
    = Returned (Array2 [[22; 212]]) /\
  thresholded sample_kernels tiny_image = Returned (Array2 [[0; 255]]) /\
  preprocess sample_kernels true tiny_image
    = Returned (Array3 [[[0; 0; 0]; [255; 255; 255]]]).
Proof. repeat split; vm_compute; reflexivity. Qed.

(** An image without pixels, or with a single channel, is refused by the
    first conversion: the cell raises. *)
Example preprocess_refuses (k : Cv2Kernels) :
  preprocess k true (Array3 []) = cv2_error /\
  preprocess k true (Array3 [[]; []]) = cv2_error /\
  preprocess k true (Array2 [[0; 255]]) = cv2_error.
Proof. repeat split. Qed.

Example opencv_kernels_values :
  fixed_point_gray 55 0 71 = 27 /\
  fixed_point_gray 255 255 255 = 255 /\
  opencv_otsu [[130; 48; 89]] = 89.
Proof. repeat split; vm_compute; reflexivity. Qed.

(** * Further properties of the notebook's code *)

(** ** Text reconstruction: composition and size *)

Lemma string_length_app (s t : string) :
  String.length (s +:+ t) = (String.length s + String.length t)%nat.
Proof.
  induction s as [|c s IH]; [reflexivity|].
  change (S (String.length (s +:+ t)) = S (String.length s + String.length t)).
  by rewrite IH.
Qed.

Lemma string_length_concat_all (items : list string) :
  String.length (concat_all items) = sum_list (map String.length items).
Proof.
  induction items as [|s items IH]; [reflexivity|].
  change (String.length (s +:+ concat_all items)
          = (String.length s + sum_list (map String.length items))%nat).
  by rewrite string_length_app, IH.
Qed.

(** Splitting the children of a node splits its text: the text of a word
    over the symbols [a ++ b] is the text over [a] followed by the text
    over [b], and likewise for paragraphs over words and for blocks over
    paragraphs.  The bounding boxes play no part. *)
Theorem text_of_appended_children :
  (forall bb bb1 bb2 (a b : list Symbol),
     get_word_text {| word_bounding_box := bb; symbols := a ++ b |} =
       get_word_text {| word_bounding_box := bb1; symbols := a |} +:+
       get_word_text {| word_bounding_box := bb2; symbols := b |}) /\
  (forall bb bb1 bb2 (a b : list Word),
     get_paragraph_text {| para_bounding_box := bb; words := a ++ b |} =
       get_paragraph_text {| para_bounding_box := bb1; words := a |} +:+
       get_paragraph_text {| para_bounding_box := bb2; words := b |}) /\
  (forall bb bb1 bb2 (a b : list Paragraph),
     get_block_text {| block_bounding_box := bb; paragraphs := a ++ b |} =
       get_block_text {| block_bounding_box := bb1; paragraphs := a |} +:+
       get_block_text {| block_bounding_box := bb2; paragraphs := b |}).
Proof.
  split; [|split]; intros bb bb1 bb2 a b;
    unfold get_word_text, get_paragraph_text, get_block_text; simpl;
    by rewrite !join_empty_sep, map_app, concat_all_app.
Qed.

Lemma get_symbol_text_length (symbol : Symbol) :
  String.length (get_symbol_text symbol) =
    (String.length (symbol_text symbol) + break_count symbol)%nat.
Proof.
  rewrite get_symbol_text_cases. unfold break_count, HasField_detected_break.
  destruct (detected_break_field (symbol_property symbol)).
  - rewrite string_length_app. reflexivity.
  - by rewrite Nat.add_0_r.
Qed.

(** The text of a block has as many characters as its symbols' texts have
    together, plus one for every symbol that carries a detected break:
    nothing else is inserted between symbols, words or paragraphs. *)
Theorem get_block_text_length (block : Block) :
  String.length (get_block_text block) =
    (sum_list (map (fun symbol => String.length (symbol_text symbol))
                 (block_symbols block))
     + sum_list (map break_count (block_symbols block)))%nat.
Proof.
  assert (get_block_text block
          = concat_all (map get_symbol_text (block_symbols block))) as ->.
  { unfold get_block_text, block_symbols. rewrite join_empty_sep.
    rewrite map_list_bind, concat_all_bind. f_equal.
    apply map_ext. intros para.
    rewrite map_list_bind, concat_all_bind.
    unfold get_paragraph_text. rewrite join_empty_sep. f_equal.
    apply map_ext. intros word. unfold get_word_text.
    by rewrite join_empty_sep. }
  rewrite string_length_concat_all, map_map.
  induction (block_symbols block) as [|symbol rest IH]; [reflexivity|].
  simpl. rewrite IH, get_symbol_text_length. lia.
Qed.

Example get_block_text_length_Hi_yo :
  String.length (get_block_text block_Hi_yo) = 6%nat.
Proof. reflexivity. Qed.

(** ** Loading: the file and the store *)

(** Runs [imread_wrapper] symbolically: one case per answer of the world. *)
Ltac imread_wrapper_cases w :=
  unfold imread_wrapper, with_, bind, call, as_object, bind, new_array, ret;
  repeat match goal with
         | |- context [if startswith ?u ?p then _ else _] =>
             destruct (startswith u p); simpl
         | |- context [match lib w ?h ?X ?c with _ => _ end] =>
             destruct (lib w h X c) as [?|?]; simpl
         | |- context [match ?r with Some _ => _ | None => _ end] =>
             destruct r; simpl
         end;
  rewrite <- ?app_assoc; simpl.

(** [imread_wrapper] closes the file it opened, and only that: in every
    world, whether reading and decoding succeed or raise, the files asked
    to be closed are the files opened (at most one), closing is the last
    request made, and when opening fails nothing is closed. *)
Theorem imread_wrapper_closes_the_file (w : World) (s : State) (uri : string) :
  exists tr,
    log (imread_wrapper uri w s).2 = log s ++ tr /\
    closed_files tr = opened_files tr /\
    (length (opened_files tr) <= 1)%nat /\
    forall f, opened_files tr = [f] ->
      exists o, last tr = Some (Event (file_close f) o).
Proof.
  imread_wrapper_cases w;
    (eexists; split; [reflexivity|]; split; [reflexivity|];
     split; [simpl; lia|]; intros f [=]; subst; eexists; reflexivity).
Qed.

Lemma unchanged_same_heap (s : State) (tr : list event) :
  unchanged s {| heap := heap s; log := tr |}.
Proof. by intros l a. Qed.

Lemma unchanged_new_array (s : State) (a : ndarray) (tr : list event) :
  unchanged s {| heap := <[fresh (dom (heap s)) := a]> (heap s); log := tr |}.
Proof.
  intros l b Hl. simpl. rewrite lookup_insert_ne; [done|].
  intros <-. pose proof (is_fresh (dom (heap s))) as Hfresh.
  apply not_elem_of_dom in Hfresh. congruence.
Qed.

(** [imread_wrapper] changes no array of the store, whatever happens.  The
    image it returns is one new array; when it returns [None] the store is
    as it was. *)
Theorem imread_wrapper_store (w : World) (s : State) (uri : string) :
  unchanged s (imread_wrapper uri w s).2 /\
  match (imread_wrapper uri w s).1 with
  | Returned (Some img) =>
      heap s !! img = None /\
      exists image, heap (imread_wrapper uri w s).2 = <[img := image]> (heap s)
  | Returned None => heap (imread_wrapper uri w s).2 = heap s
  | Raised _ => True
  end.
Proof.
  imread_wrapper_cases w;
    (split; [first [apply unchanged_same_heap | apply unchanged_new_array]|]);
    try done;
    (split; [apply not_elem_of_dom, is_fresh | eexists; reflexivity]).
Qed.

(** ** The OCR requests *)

(** Runs a straight-line function symbolically, one case per answer. *)
Ltac straight_line_cases w s :=
  unfold bind, load, call, getitem, ret, raise;
  repeat match goal with
         | |- context [match heap s !! ?l with _ => _ end] =>
             destruct (heap s !! l); simpl
         | |- context [match lib w ?h ?X ?c with _ => _ end] =>
             destruct (lib w h X c) as [?|?]; simpl
         | |- context [match ?xs !! ?i with Some _ => _ | None => _ end] =>
             destruct (xs !! i); simpl
         end;
  rewrite <- ?app_assoc; simpl.

(** When the Vision service answers without any page (an image without
    text), both functions raise [IndexError], after the same three
    requests as otherwise; the store is as it was. *)
Theorem google_detection_without_page (w : World) (s : State) (img : loc)
    (data : ndarray) (pil : PILImage) (buf : bytes)
    (resp : AnnotateImageResponse) :
  heap s !! img = Some data ->
  pages (full_text_annotation resp) = [] ->
  (answered w (log s)
     (detection_requests data pil buf document_text_detection resp) ->
   google_document_text_detection img w s =
     (Raised IndexError,
      {| heap := heap s;
         log := log s ++
                detection_requests data pil buf document_text_detection resp |}))
  /\
  (answered w (log s) (detection_requests data pil buf text_detection resp) ->
   google_text_detection img w s =
     (Raised IndexError,
      {| heap := heap s;
         log := log s ++ detection_requests data pil buf text_detection resp |})).
Proof.
  intros Himg Hpages. split; intros (H1 & H2 & H3 & _); simpl in *.
  - unfold google_document_text_detection, bind, load, call, getitem, raise.
    rewrite Himg. simpl. rewrite H1. simpl. rewrite H2. simpl.
    rewrite <- !app_assoc in H3. simpl in H3. rewrite <- !app_assoc. simpl.
    rewrite H3. simpl. rewrite Hpages. reflexivity.
  - unfold google_text_detection, bind, load, call, getitem, raise.
    rewrite Himg. simpl. rewrite H1. simpl. rewrite H2. simpl.
    rewrite <- !app_assoc in H3. simpl in H3. rewrite <- !app_assoc. simpl.
    rewrite H3. simpl. rewrite Hpages. reflexivity.
Qed.

Lemma google_detection_without_page_witness :
  (google_document_text_detection img_ref blank_world loaded_state).1
    = Raised IndexError /\
  (google_text_detection img_ref blank_world loaded_state).1 = Raised IndexError.
Proof.
  pose proof (google_detection_without_page blank_world loaded_state img_ref
                tiny_image {| pil_id := 0 |}
                [Byte.x89; Byte.x50; Byte.x4e; Byte.x47]
                blank_response eq_refl eq_refl) as [Hdoc Htext].
  split.
  - rewrite Hdoc; [reflexivity | repeat split; reflexivity].
  - rewrite Htext; [reflexivity | repeat split; reflexivity].
Defined.

(** Each Vision function asks its own endpoint only, at most once, and
    never the other one, whatever fails; it returns a page only after its
    endpoint was asked. *)
Theorem google_detection_own_endpoint (w : World) (s : State) (img : loc) :
  (exists tr,
     log (google_text_detection img w s).2 = log s ++ tr /\
     match (google_text_detection img w s).1 with
     | Returned _ => endpoints_asked tr = [TEXT_DETECTION]
     | Raised _ =>
         endpoints_asked tr = [] \/ endpoints_asked tr = [TEXT_DETECTION]
     end) /\
  (exists tr,
     log (google_document_text_detection img w s).2 = log s ++ tr /\
     match (google_document_text_detection img w s).1 with
     | Returned _ => endpoints_asked tr = [DOCUMENT_TEXT_DETECTION]
     | Raised _ =>
         endpoints_asked tr = [] \/
         endpoints_asked tr = [DOCUMENT_TEXT_DETECTION]
     end).
Proof.
  split.
  - unfold google_text_detection. straight_line_cases w s;
      first [ exists []; split; [by rewrite app_nil_r|]; simpl; by auto
            | eexists; split; [reflexivity|]; simpl; by auto ].
  - unfold google_document_text_detection. straight_line_cases w s;
      first [ exists []; split; [by rewrite app_nil_r|]; simpl; by auto
            | eexists; split; [reflexivity|]; simpl; by auto ].
Qed.

(** The functions that only look at the image never write to the store:
    after [show_image], [tesseract_ocr] and the two Vision functions the
    store is exactly as before, whether they return or raise. *)
Theorem readers_leave_the_store (w : World) (s : State) (img : loc) :
  (forall title, heap (show_image img title w s).2 = heap s) /\
  (forall tesseract, heap (tesseract_ocr tesseract img w s).2 = heap s) /\
  heap (google_text_detection img w s).2 = heap s /\
  heap (google_document_text_detection img w s).2 = heap s.
Proof.
  split; [|split; [|split]]; intros;
    unfold show_image, tesseract_ocr, google_text_detection,
      google_document_text_detection;
    straight_line_cases w s; reflexivity.
Qed.

(** ** Rules for [emits] *)

Section Emits.
Context {B : Type} (f : event -> option B) (w : World).

Lemma emits_ret {A} (a : A) : emits f w (ret a) [].
Proof. intros s. exists []. simpl. by rewrite app_nil_r. Qed.



Lemma emits_loud {X} (c : libcall X) (b : B) :
  (forall o, f (Event c o) = Some b) -> emits f w (call c) [b].
Proof.
  intros Hc s. exists [Event c (lib w (log s) X c)]. simpl.
  split; [done|]. rewrite Hc. by destruct (lib w (log s) X c).
Qed.

Lemma emits_load (l : loc) : emits f w (load l) [].
Proof.
  intros s. exists []. unfold load. rewrite app_nil_r.
  by destruct (heap s !! l); simpl.
Qed.

Lemma emits_store (l : loc) (a : ndarray) : emits f w (store l a) [].
Proof.
  intros s. exists []. unfold store.
  destruct (heap s !! l); simpl; by rewrite app_nil_r.
Qed.

Lemma emits_new_array (a : ndarray) : emits f w (new_array a) [].
Proof. intros s. exists []. simpl. by rewrite app_nil_r. Qed.

Lemma emits_bind {A C} (m : nb A) (k : A -> nb C) (ps qs : list B) :
  emits f w m ps ->
  (forall a, emits f w (k a) qs) ->
  emits f w (bind m k) (ps ++ qs).
Proof.
  intros Hm Hk s. destruct (Hm s) as (tr1 & Hlog1 & Hout1). unfold bind.
  destruct (m w s) as [[a|e] s1]; simpl in *.
  - destruct (Hk a s1) as (tr2 & Hlog2 & Hout2).
    exists (tr1 ++ tr2). rewrite Hlog2, Hlog1, app_assoc. split; [done|].
    rewrite omap_app, Hout1.
    destruct ((k a w s1).1); [by rewrite Hout2 | by apply prefix_app].
  - exists tr1. split; [done|]. by apply prefix_app_r.
Qed.

Lemma emits_for_acc {X A} (g : X -> list B) (body : A -> X -> nb A)
    (xs : list X) (acc : A) :
  (forall acc x, emits f w (body acc x) (g x)) ->
  emits f w (for_acc xs acc body) (xs ≫= g).
Proof.
  intros Hbody. revert acc. induction xs as [|x xs IH]; intros acc.
  - apply emits_ret.
  - change ((x :: xs) ≫= g) with (g x ++ (xs ≫= g)).
    apply emits_bind; [apply Hbody | apply IH].
Qed.

Lemma emits_eq {A} (m : nb A) (out out' : list B) :
  out = out' -> emits f w m out -> emits f w m out'.
Proof. by intros ->. Qed.

End Emits.

Lemma list_bind_singleton {A B} (g : A -> B) (xs : list A) :
  xs ≫= (fun x => [g x]) = map g xs.
Proof.
  induction xs as [|x xs IH]; [reflexivity|].
  change ((x :: xs) ≫= (fun x => [g x])) with ([g x] ++ (xs ≫= fun x => [g x])).
  by rewrite IH.
Qed.

Lemma list_bind_ext {A B} (g h : A -> list B) (xs : list A) :
  (forall x, g x = h x) -> xs ≫= g = xs ≫= h.
Proof.
  intros Hgh. induction xs as [|x xs IH]; [reflexivity|].
  change (g x ++ (xs ≫= g) = h x ++ (xs ≫= h)). by rewrite Hgh, IH.
Qed.

Lemma page_paragraphs_bind {B} (g : Paragraph -> B) (page : Page) :
  (blocks page ≫= fun block => paragraphs block ≫= fun para => [g para])
  = map g (page_paragraphs page).
Proof.
  unfold page_paragraphs. rewrite map_list_bind.
  apply list_bind_ext. intros block. apply list_bind_singleton.
Qed.

Lemma page_words_bind {B} (g : Word -> B) (page : Page) :
  (blocks page ≫= fun block => paragraphs block ≫= fun para =>
     words para ≫= fun word => [g word])
  = map g (page_words page).
Proof.
  unfold page_words, page_paragraphs. rewrite map_list_bind, list_bind_bind.
  apply list_bind_ext. intros block.
  apply list_bind_ext. intros para. apply list_bind_singleton.
Qed.

(** ** What the renderers draw *)

Lemma add_bounding_box_outlines (w : World) (l : loc) (bb : BoundingPoly) :
  emits polyline_asked w (add_bounding_box l (vertices bb)) [outline bb].
Proof.
  unfold add_bounding_box.
  apply (emits_bind _ _ _ _ [] [outline bb]); [apply emits_load|].
  intros data.
  apply (emits_bind _ _ _ _ [outline bb] []); [by apply emits_loud|].
  intros drawn. apply emits_store.
Qed.

Lemma ndarray_copy_emits {B} (f : event -> option B) (w : World) (img : loc) :
  emits f w (ndarray_copy img) [].
Proof.
  unfold ndarray_copy.
  apply (emits_bind _ _ _ _ [] []); [apply emits_load|].
  intros a. apply emits_new_array.
Qed.

(** A renderer: copy, loops, return. *)
Lemma renderer_emits {B} (f : event -> option B) (w : World) (img : loc)
    (loops : loc -> nb (list string)) (out : list B) :
  (forall l, emits f w (loops l) out) ->
  emits f w (_img <- ndarray_copy img ;; texts <- loops _img ;; ret (texts, _img))
    out.
Proof.
  intros Hloops.
  apply (emits_bind _ _ _ _ [] out); [apply ndarray_copy_emits|]. intros l.
  eapply emits_eq; [apply app_nil_r|].
  apply emits_bind; [apply Hloops|]. intros texts. apply emits_ret.
Qed.

(** One iteration of a renderer's innermost loop. *)
Lemma outline_step (w : World) (l : loc) (bb : BoundingPoly) (texts : list string) :
  emits polyline_asked w (add_bounding_box l (vertices bb) ;; ret texts)
    [outline bb].
Proof.
  eapply emits_eq; [apply app_nil_r|].
  apply emits_bind; [apply add_bounding_box_outlines|].
  intros _. apply emits_ret.
Qed.

(** Each renderer asks [cv2.polylines] for the outline of every node of
    its level, in traversal order, each as one closed red polygon of
    thickness 2 through the node's vertices, and for nothing else; if it
    raises on the way, what it asked for is a prefix of that. *)
Theorem renderers_outline_every_node (w : World) (page : Page) (img : loc) :
  emits polyline_asked w (get_google_blocks page img)
    (map (fun block => outline (block_bounding_box block)) (blocks page)) /\
  emits polyline_asked w (get_google_paragraphs page img)
    (map (fun para => outline (para_bounding_box para)) (page_paragraphs page))
  /\
  emits polyline_asked w (get_google_words page img)
    (map (fun word => outline (word_bounding_box word)) (page_words page)).
Proof.
  split; [|split]; apply renderer_emits; intros l.
  - eapply emits_eq; [apply list_bind_singleton|].
    apply emits_for_acc. intros texts block. apply outline_step.
  - eapply emits_eq; [apply page_paragraphs_bind|].
    apply emits_for_acc. intros texts block.
    apply emits_for_acc. intros texts' para. apply outline_step.
  - eapply emits_eq; [apply page_words_bind|].
    apply emits_for_acc. intros texts block.
    apply emits_for_acc. intros texts' para.
    apply emits_for_acc. intros texts'' word. apply outline_step.
Qed.

(** ** The texts of the three levels *)

Lemma get_google_blocks_texts (w : World) (s : State) (page : Page) (img : loc)
    (texts : list string) (_img : loc) :
  returns w s (get_google_blocks page img) (texts, _img) ->
  texts = map get_block_text (blocks page).
Proof.
  revert texts _img. apply renderer_value.
  intros l. eapply hoare_conseq;
    [apply (for_acc_value w (fun acc block => acc ++ [get_block_text block]))
    | done | ].
  - intros acc block. apply add_bounding_box_value.
  - intros o _ H texts ->. rewrite (H texts eq_refl). by rewrite foldl_snoc_map.
Qed.

Lemma get_google_paragraphs_texts (w : World) (s : State) (page : Page)
    (img : loc) (texts : list string) (_img : loc) :
  returns w s (get_google_paragraphs page img) (texts, _img) ->
  texts = map get_paragraph_text (page_paragraphs page).
Proof.
  revert texts _img. apply renderer_value.
  intros l. eapply hoare_conseq;
    [apply (for_acc_value w (fun acc block =>
              acc ++ map get_paragraph_text (paragraphs block)))
    | done | ].
  - intros acc block. eapply hoare_conseq;
      [apply (for_acc_value w (fun acc para => acc ++ [get_paragraph_text para]))
      | done | ].
    + intros acc' para. apply add_bounding_box_value.
    + intros o _ H texts ->. rewrite (H texts eq_refl).
      by rewrite foldl_snoc_map.
  - intros o _ H texts ->. rewrite (H texts eq_refl).
    rewrite foldl_app_bind. unfold page_paragraphs. by rewrite map_list_bind.
Qed.

Lemma get_google_words_texts (w : World) (s : State) (page : Page) (img : loc)
    (texts : list string) (_img : loc) :
  returns w s (get_google_words page img) (texts, _img) ->
  texts = map get_word_text (page_words page).
Proof.
  revert texts _img. apply renderer_value.
  intros l. eapply hoare_conseq;
    [apply (for_acc_value w (fun acc block =>
              acc ++ (paragraphs block ≫= fun para =>
                        map get_word_text (words para))))
    | done | ].
  - intros acc block. eapply hoare_conseq;
      [apply (for_acc_value w (fun acc para =>
                acc ++ map get_word_text (words para)))
      | done | ].
    + intros acc' para. eapply hoare_conseq;
        [apply (for_acc_value w (fun acc word => acc ++ [get_word_text word]))
        | done | ].
      * intros acc'' word. apply add_bounding_box_value.
      * intros o _ H texts ->. rewrite (H texts eq_refl).
        by rewrite foldl_snoc_map.
    + intros o _ H texts ->. rewrite (H texts eq_refl).
      by rewrite foldl_app_bind.
  - intros o _ H texts ->. rewrite (H texts eq_refl).
    rewrite foldl_app_bind. unfold page_words, page_paragraphs.
    by rewrite map_list_bind, list_bind_bind.
Qed.

(** Whatever the level, the texts a renderer returns, put end to end, make
    the same string: the words' texts, the paragraphs' texts and the
    blocks' texts of a page all concatenate to the text of the page.  This
    holds across runs, in any worlds and states. *)
Theorem renderers_agree_on_text (page : Page)
    (w1 w2 w3 : World) (s1 s2 s3 : State) (img1 img2 img3 : loc)
    (block_texts para_texts word_texts : list string) (b p q : loc) :
  returns w1 s1 (get_google_blocks page img1) (block_texts, b) ->
  returns w2 s2 (get_google_paragraphs page img2) (para_texts, p) ->
  returns w3 s3 (get_google_words page img3) (word_texts, q) ->
  concat_all block_texts = concat_all para_texts /\
  concat_all para_texts = concat_all word_texts.
Proof.
  intros ->%get_google_blocks_texts ->%get_google_paragraphs_texts
         ->%get_google_words_texts.
  unfold page_words, page_paragraphs. split.
  - rewrite map_list_bind, concat_all_bind. f_equal.
    apply map_ext. intros block. apply join_empty_sep.
  - rewrite (map_list_bind get_word_text), concat_all_bind.
    rewrite <- (map_map (fun para => map get_word_text (words para)) concat_all).
    rewrite <- (map_map words (map get_word_text)) at 1.
    f_equal. rewrite !map_map. apply map_ext. intros para.
    apply join_empty_sep.
Qed.

Lemma renderers_agree_on_text_witness :
  concat_all ["Hi yo "; "Hi yo "] = concat_all ["Hi yo "; "Hi yo "] /\
  concat_all ["Hi yo "; "Hi yo "] = concat_all ["Hi "; "yo "; "Hi "; "yo "].
Proof.
  apply (renderers_agree_on_text page_Hi_yo
           sample_world sample_world sample_world
           loaded_state loaded_state loaded_state img_ref img_ref img_ref
           _ _ _ 2%positive 2%positive 2%positive);
    reflexivity.
Defined.

(** ** Nothing to outline *)

Lemma list_bind_nil_inv {A B} (g : A -> list B) (xs : list A) :
  xs ≫= g = [] -> forall x, x ∈ xs -> g x = [].
Proof.
  induction xs as [|y xs IH]; intros H x Hx; [by apply elem_of_nil in Hx|].
  change (g y ++ (xs ≫= g) = []) in H. apply app_eq_nil in H as [Hy Hxs].
  apply elem_of_cons in Hx as [->|Hx]; [done | by apply IH].
Qed.

Lemma for_acc_skip {X A} (body : A -> X -> nb A) (xs : list X) (acc : A)
    (w : World) (s : State) :
  (forall x, x ∈ xs -> forall acc s, body acc x w s = (Returned acc, s)) ->
  for_acc xs acc body w s = (Returned acc, s).
Proof.
  induction xs as [|x xs IH]; intros Hbody; [reflexivity|].
  simpl. unfold bind. rewrite Hbody by apply list_elem_of_here.
  apply IH. intros y Hy. apply Hbody. by apply list_elem_of_further.
Qed.

(** A renderer whose level has no node on the page asks for nothing and
    returns no text, with a new array that holds what the input image
    holds: for [get_google_blocks] a page without blocks, for
    [get_google_paragraphs] a page whose blocks have no paragraph, for
    [get_google_words] a page whose paragraphs have no word. *)
Theorem renderers_with_nothing_to_outline (w : World) (s : State) (page : Page)
    (img : loc) (data : ndarray) :
  heap s !! img = Some data ->
  exists _img,
    heap s !! _img = None /\
    (blocks page = [] ->
     get_google_blocks page img w s =
       (Returned ([], _img),
        {| heap := <[_img := data]> (heap s); log := log s |})) /\
    (page_paragraphs page = [] ->
     get_google_paragraphs page img w s =
       (Returned ([], _img),
        {| heap := <[_img := data]> (heap s); log := log s |})) /\
    (page_words page = [] ->
     get_google_words page img w s =
       (Returned ([], _img),
        {| heap := <[_img := data]> (heap s); log := log s |})).
Proof.
  intros Himg. exists (fresh (dom (heap s))).
  split; [apply not_elem_of_dom, is_fresh|].
  split; [|split]; intros Hnone.
  - unfold get_google_blocks, bind, ndarray_copy, bind, load, new_array, ret.
    rewrite Himg, Hnone. reflexivity.
  - unfold get_google_paragraphs, bind, ndarray_copy, bind, load, new_array, ret.
    rewrite Himg. simpl. rewrite for_acc_skip; [reflexivity|].
    intros block Hblock acc s'.
    by rewrite (list_bind_nil_inv _ _ Hnone block Hblock).
  - unfold get_google_words, bind, ndarray_copy, bind, load, new_array, ret.
    rewrite Himg. simpl. rewrite for_acc_skip; [reflexivity|].
    intros block Hblock acc s'. apply for_acc_skip.
    intros para Hpara acc' s''.
    assert (para ∈ page_paragraphs page) as Hin
      by (apply list_elem_of_bind; eauto).
    by rewrite (list_bind_nil_inv _ _ Hnone para Hin).
Qed.

Lemma renderers_with_nothing_to_outline_witness :
  exists _img,
    heap loaded_state !! _img = None /\
    get_google_blocks empty_page img_ref sample_world loaded_state =
      (Returned ([], _img),
       {| heap := <[_img := tiny_image]> (heap loaded_state);
          log := log loaded_state |}) /\
    get_google_words wordless_page img_ref sample_world loaded_state =
      (Returned ([], _img),
       {| heap := <[_img := tiny_image]> (heap loaded_state);
          log := log loaded_state |}).
Proof.
  destruct (renderers_with_nothing_to_outline sample_world loaded_state
              empty_page img_ref tiny_image eq_refl)
    as (l & Hl & Hblocks & _ & _).
  destruct (renderers_with_nothing_to_outline sample_world loaded_state
              wordless_page img_ref tiny_image eq_refl)
    as (l' & _ & _ & _ & Hwords).
  exists l. split; [done|]. split; [by apply Hblocks|].
  assert (l' = l) as <-.
  { specialize (Hblocks eq_refl). specialize (Hwords eq_refl).
    apply (f_equal fst) in Hblocks, Hwords. simpl in *.
    assert (get_google_blocks empty_page img_ref sample_world loaded_state
            = get_google_words wordless_page img_ref sample_world loaded_state)
      as Heq by reflexivity.
    rewrite Heq, Hwords in Hblocks. congruence. }
  by apply Hwords.
Defined.

(** ** Display loops: what the engines are given *)

Lemma arrays_recognised_snoc (tr : list event) (ev : event) :
  arrays_recognised (tr ++ [ev]) =
    arrays_recognised tr ++
    match array_recognised ev with Some a => [a] | None => [] end.
Proof.
  unfold arrays_recognised. rewrite omap_app. simpl.
  by destruct (array_recognised ev).
Qed.

Section Recognising.
Context (w : World) (s0 : State) (img : loc).

Lemma call_recognising {X} (c : libcall X) :
  (forall o, array_recognised (Event c o) = None) ->
  hoare w (recognising s0 img) (call c) (fun _ => recognising s0 img).
Proof.
  intros Hc. apply hoare_call. intros s [Himg (tr & Hlog & Harr)] o.
  split; [done|]. exists (tr ++ [Event c o]).
  split; [simpl; by rewrite Hlog, app_assoc|].
  intros arr. rewrite arrays_recognised_snoc, Hc, app_nil_r. apply Harr.
Qed.

Lemma store_recognising (l : loc) (a : ndarray) :
  l <> img ->
  hoare w (recognising s0 img) (store l a) (fun _ => recognising s0 img).
Proof.
  intros Hl. apply hoare_store. intros s [Himg Htr].
  destruct (heap s !! l); [|done]. split; [|done].
  simpl. by rewrite lookup_insert_ne.
Qed.

Lemma tesseract_ocr_recognising (tesseract : PyTessBaseAPI) :
  hoare w (recognising s0 img) (tesseract_ocr tesseract img)
    (fun _ => recognising s0 img).
Proof.
  unfold tesseract_ocr.
  eapply hoare_bind
    with (R := fun data s => recognising s0 img s /\ heap s !! img = Some data).
  { apply hoare_load. intros s Hs. by destruct (heap s !! img). }
  intros data.
  eapply hoare_bind with (R := fun _ => recognising s0 img).
  { apply hoare_call. intros s [[Himg (tr & Hlog & Harr)] Hdata] o.
    assert (recognising s0 img
              {| heap := heap s;
                 log := log s ++ [Event (Image_fromarray data) o] |}) as Hrec.
    { split; [done|]. exists (tr ++ [Event (Image_fromarray data) o]).
      split; [simpl; by rewrite Hlog, app_assoc|].
      intros arr. rewrite arrays_recognised_snoc. simpl.
      intros [Hin| ->%list_elem_of_singleton]%elem_of_app; [by apply Harr|].
      congruence. }
    by destruct o. }
  intros pil.
  apply hoare_seq_inv; [by apply call_recognising | done |]. intros _.
  apply hoare_seq_inv; [by apply call_recognising | done |]. intros _.
  by apply call_recognising.
Qed.

Lemma ndarray_copy_recognising :
  hoare w (recognising s0 img) (ndarray_copy img)
    (fun o s => match o with
                | Returned l => l <> img /\ recognising s0 img s
                | Raised _ => recognising s0 img s
                end).
Proof.
  unfold ndarray_copy.
  eapply hoare_bind
    with (R := fun _ s => recognising s0 img s /\ is_Some (heap s !! img)).
  { apply hoare_load. intros s Hs. destruct (heap s !! img) eqn:E; eauto. }
  intros a. apply hoare_new_array. intros s l [[Himg Htr] [b Hb]] Hl.
  assert (l <> img) by congruence.
  split; [done|]. split; [|done]. simpl. by rewrite lookup_insert_ne.
Qed.

Lemma rectangle_recognising (l : loc) pt1 pt2 color thickness :
  l <> img ->
  hoare w (recognising s0 img) (rectangle l pt1 pt2 color thickness)
    (fun _ => recognising s0 img).
Proof.
  intros Hl. unfold rectangle.
  apply hoare_seq_inv; [apply load_inv | done |]. intros data.
  apply hoare_seq_inv; [by apply call_recognising | done |]. intros drawn.
  by apply store_recognising.
Qed.

Lemma display_tesseract_results_recognising (level : RIL) :
  hoare w (recognising s0 img) (display_tesseract_results img level)
    (fun _ => recognising s0 img).
Proof.
  unfold display_tesseract_results.
  apply hoare_seq_inv; [by apply call_recognising | done |]. intros fig_axs.
  apply hoare_seq_inv; [apply iter_axs_inv | done |]. intros axs.
  apply hoare_for_acc_inv. intros _ [[name tesseract] ax]. simpl.
  apply hoare_seq_inv; [apply tesseract_ocr_recognising | done |].
  intros results.
  eapply hoare_bind
    with (R := fun l s => l <> img /\ recognising s0 img s);
    [apply ndarray_copy_recognising|].
  intros l. apply hoare_pre_pure. intros Hl.
  apply hoare_seq_inv; [by apply call_recognising | done |]. intros rs.
  apply hoare_seq_inv; [| done |].
  { apply hoare_for_acc_inv. intros tokens r.
    apply hoare_seq_inv; [by apply call_recognising | done |]. intros text.
    apply hoare_seq_inv; [by apply call_recognising | done |]. intros bb.
    apply hoare_seq_inv; [| done |].
    { destruct bb as [[[[x1 y1] x2] y2]|];
        [by apply hoare_ret | by apply hoare_raise]. }
    intros pts.
    apply hoare_seq_inv; [by apply rectangle_recognising | done |].
    intros _. by apply hoare_ret. }
  intros tokens.
  apply hoare_seq_inv; [by apply call_recognising | done |]. intros _.
  apply hoare_seq_inv; [by apply call_recognising | done |]. intros _.
  apply hoare_seq_inv; [by apply call_recognising | done |]. intros _.
  apply hoare_seq_inv; [by apply call_recognising | done |]. intros _.
  apply hoare_seq_inv; [apply load_inv | done |]. intros data.
  by apply call_recognising.
Qed.

End Recognising.

(** Every engine configuration of [display_tesseract_results] recognises
    the image as the caller passed it: each array handed over for
    recognition is what [img] held at the call, never an image that an
    earlier configuration drew its boxes on; and [img] holds the same
    afterwards. *)
Theorem display_tesseract_results_recognises_the_input (w : World) (s : State)
    (img : loc) (level : RIL) :
  heap (display_tesseract_results img level w s).2 !! img = heap s !! img /\
  exists tr,
    log (display_tesseract_results img level w s).2 = log s ++ tr /\
    forall arr, arr ∈ arrays_recognised tr -> heap s !! img = Some arr.
Proof.
  apply (display_tesseract_results_recognising w s img level s).
  split; [done|]. exists []. split; [by rewrite app_nil_r|].
  by intros arr ?%elem_of_nil.
Qed.

(** ** Display loops: how many subplots are filled *)













Example display_google_results_returns :
  (display_google_results (pages_of page_Hi_yo page_Hi_yo) img_ref
     get_google_words sample_world loaded_state).1 = Returned tt.
Proof. vm_compute. reflexivity. Qed.

(** With a single page, [plt.subplots] hands back one bare [Axes], which
    [zip] cannot iterate over: whenever that is the answer,
    [display_google_results] raises [TypeError] straight away; no page is
    rendered, nothing is printed or shown, the store is as it was. *)
Theorem display_google_results_bare_axes (w : World) (s : State)
    (pages : list (string * Page)) (img : loc)
    (func : Page -> loc -> nb (list string * loc)) (fig : Figure) (ax : Axes) :
  lib w (log s) _
    (plt_subplots 1 (Z.of_nat (length pages)) (5 * Z.of_nat (length pages), 88))
  = Returned (fig, OneAxes ax) ->
  display_google_results pages img func w s =
    (Raised TypeError,
     {| heap := heap s;
        log := log s ++
          [ Event (plt_subplots 1 (Z.of_nat (length pages))
                     (5 * Z.of_nat (length pages), 88))
              (Returned (fig, OneAxes ax)) ] |}).
Proof.
  intros Hsub. unfold display_google_results, bind, call. rewrite Hsub.
  reflexivity.
Qed.

Lemma display_google_results_bare_axes_witness :
  (display_google_results [("Google Text Detection"%string, page_Hi_yo)]
     img_ref get_google_blocks sample_world loaded_state).1 = Raised TypeError.
Proof.
  rewrite (display_google_results_bare_axes sample_world loaded_state
             [("Google Text Detection"%string, page_Hi_yo)] img_ref
             get_google_blocks {| fig_id := 0 |} {| ax_id := 0 |});
    reflexivity.
Defined.

(** ** One recognition *)

(** [tesseract_ocr] hands the engine the PIL image made of what [img]
    holds, asks it to recognise and returns the engine's iterator.  It
    does not look at what [Recognize] answers: the iterator is returned
    also when recognition reports failure ([False]). *)
Theorem tesseract_ocr_contract (w : World) (s : State)
    (tesseract : PyTessBaseAPI) (img : loc) (data : ndarray) (pil : PILImage)
    (recognised : bool) (results : PyResultIterator) :
  heap s !! img = Some data ->
  answered w (log s) (ocr_requests tesseract data pil recognised results) ->
  tesseract_ocr tesseract img w s =
    (Returned results,
     {| heap := heap s;
        log := log s ++ ocr_requests tesseract data pil recognised results |}).
Proof.
  intros Himg (H1 & H2 & H3 & H4 & _). simpl in *.
  unfold tesseract_ocr, bind, load, call. rewrite Himg. simpl.
  rewrite H1. simpl. rewrite H2. simpl. rewrite H3. simpl. rewrite H4.
  by rewrite <- !app_assoc.
Qed.

Lemma tesseract_ocr_contract_witness :
  (tesseract_ocr {| psm := PSM_SPARSE_TEXT |} img_ref
     (recognize_answers false sample_world) loaded_state).1
  = Returned {| it_id := 0; it_pos := 0 |}.
Proof.
  rewrite (tesseract_ocr_contract (recognize_answers false sample_world)
             loaded_state {| psm := PSM_SPARSE_TEXT |} img_ref tiny_image
             {| pil_id := 0 |} false {| it_id := 0; it_pos := 0 |}).
  - reflexivity.
  - reflexivity.
  - repeat split; reflexivity.
Defined.
